(** * Ohmic-Bridge: the song handler of the OSC bridge ([abletonosc/song.py])

    A shallow embedding of the handlers that [SongHandler.init_api] registers
    for the bulk track query ([song_get_track_data]), the cue-point jump
    ([song_jump_to_cue_point]) and the beat listener ([start_beat_listener],
    [stop_beat_listener], [current_song_time_changed]), together with the
    properties of these handlers.

    The host (Ableton Live's object graph) is not part of the repository; it
    is modelled as plain data: objects carry an attribute table that answers
    [getattr], vectors are lists indexed the Python way, and the song keeps the
    list of registered current-song-time listeners. *)

From Stdlib Require Import ZArith QArith Qround Qabs Lia Ascii String.
From Stdlib Require DecimalString DecimalNat.
From stdpp Require Import base option list strings gmap.

Local Open Scope Z_scope.

(** ** Python values, exceptions and built-ins *)

Module Py.

Inductive exn : Type :=
| ValueError
| IndexError
| AttributeError
| TypeError
| RuntimeError.

Inductive result (A : Type) : Type :=
| Ok (a : A)
| Raise (e : exn).
Arguments Ok {A} a.
Arguments Raise {A} e.

(** Identity of a host object. *)
Definition ref : Type := nat.

(** The values that travel through the handlers: OSC arguments (integers,
    floats, strings, booleans), [None], and references to host objects.
    A finite float is the rational it denotes: the handlers only compare
    floats and truncate them, and both operations are exact. *)
Inductive value : Type :=
| VNone
| VBool (b : bool)
| VInt (z : Z)
| VFloat (q : Q)
| VStr (s : string)
| VTrack (r : ref)
| VObject (r : ref).

(** [int(x)] on a float: truncation towards zero. *)
Definition trunc (q : Q) : Z :=
  if 0 <=? Qnum q then Qfloor q else Qceiling q.

(** [x < y] on floats. *)
Definition float_lt (x y : Q) : bool := negb (Qle_bool y x).

(** [isinstance(v, str)] and [isinstance(v, int)]; [bool] is a subclass of
    [int] in Python. *)
Definition is_str (v : value) : bool :=
  match v with VStr _ => true | _ => false end.

Definition is_int (v : value) : bool :=
  match v with VInt _ | VBool _ => true | _ => false end.

(** [range(lo, hi)]. *)
Definition range (lo hi : Z) : list Z :=
  map (fun k : nat => lo + Z.of_nat k) (seq 0 (Z.to_nat (hi - lo))).

(** [l[i]] on a sequence: negative indices count from the end, anything
    outside [-len, len) raises [IndexError]. *)
Definition getitem {A : Type} (l : list A) (i : Z) : result A :=
  let n := Z.of_nat (length l) in
  let j := if i <? 0 then i + n else i in
  if (j <? 0) || (n <=? j) then Raise IndexError
  else match l !! Z.to_nat j with
       | Some x => Ok x
       | None => Raise IndexError
       end.

(** [s.split(".")]. *)
Fixpoint split_dot (s : string) : list string :=
  match s with
  | EmptyString => [EmptyString]
  | String c s' =>
      if Ascii.eqb c "."%char then EmptyString :: split_dot s'
      else match split_dot s' with
           | h :: t => String c h :: t
           | [] => [String c EmptyString]
           end
  end.

(** [getattr(obj, name)] against the attribute table of a host object. *)
Definition getattr (attrs : gmap string value) (name : string) : result value :=
  match attrs !! name with
  | Some v => Ok v
  | None => Raise AttributeError
  end.

End Py.
Export Py.

(** ** The host object graph *)

Module Live.

Record Clip : Type := { clip_attrs : gmap string value }.

Record ClipSlot : Type := {
  clip_slot_attrs : gmap string value;
  clip : option Clip
}.

Record Device : Type := { device_attrs : gmap string value }.

(** A track: its identity, the attributes [getattr] finds on it, and the two
    collections the query iterates over. *)
Record Track : Type := {
  track_ref : ref;
  track_attrs : gmap string value;
  clip_slots : list ClipSlot;
  devices : list Device
}.

Record CuePoint : Type := {
  cue_ref : ref;
  name : string;
  time : Q
}.

(** A callback registered on the song: the handler's bound method
    [self.current_song_time_changed], or a callback of some other client. *)
Inductive listener : Type :=
| Bound_current_song_time_changed
| Foreign_listener (n : nat).

Definition listener_eqb (a b : listener) : bool :=
  match a, b with
  | Bound_current_song_time_changed, Bound_current_song_time_changed => true
  | Foreign_listener n, Foreign_listener m => Nat.eqb n m
  | _, _ => false
  end.

Record Song : Type := {
  tracks : list Track;
  cue_points : list CuePoint;
  current_song_time : Q;
  current_song_time_listeners : list listener;
  (** the calls of [CuePoint.jump()], oldest first *)
  jumped : list ref
}.

(** [list(song.tracks).index(t)]: position of the first track that is the
    object [r]; [ValueError] when there is none. *)
Fixpoint index_from (r : ref) (ts : list Track) (i : Z) : result Z :=
  match ts with
  | [] => Raise ValueError
  | t :: ts' => if Nat.eqb (track_ref t) r then Ok i else index_from r ts' (i + 1)
  end.

Definition index (ts : list Track) (r : ref) : result Z := index_from r ts 0.

(** [song.remove_current_song_time_listener(cb)]: drops the first
    registration of [cb]; the host raises when [cb] is not registered. *)
Fixpoint remove_first (cb : listener) (ls : list listener) : option (list listener) :=
  match ls with
  | [] => None
  | l :: ls' =>
      if listener_eqb l cb then Some ls'
      else match remove_first cb ls' with
           | Some r => Some (l :: r)
           | None => None
           end
  end.

Definition remove_current_song_time_listener (cb : listener) (s : Song) : result Song :=
  match remove_first cb (current_song_time_listeners s) with
  | Some ls =>
      Ok {| tracks := tracks s; cue_points := cue_points s;
            current_song_time := current_song_time s;
            current_song_time_listeners := ls; jumped := jumped s |}
  | None => Raise RuntimeError
  end.

(** [song.add_current_song_time_listener(cb)]: appends a registration. A
    host that refuses a callback that is already connected ([strict]) raises
    instead; a lenient host stacks the registrations. *)
Definition add_current_song_time_listener (strict : bool) (cb : listener) (s : Song)
  : result Song :=
  if strict && existsb (listener_eqb cb) (current_song_time_listeners s)
  then Raise RuntimeError
  else Ok {| tracks := tracks s; cue_points := cue_points s;
             current_song_time := current_song_time s;
             current_song_time_listeners := current_song_time_listeners s ++ [cb];
             jumped := jumped s |}.

(** [cue_point.jump()]. *)
Definition jump (c : CuePoint) (s : Song) : Song :=
  {| tracks := tracks s; cue_points := cue_points s;
     current_song_time := current_song_time s;
     current_song_time_listeners := current_song_time_listeners s;
     jumped := jumped s ++ [cue_ref c] |}.

(** The host moves the playhead. *)
Definition set_current_song_time (t : Q) (s : Song) : Song :=
  {| tracks := tracks s; cue_points := cue_points s;
     current_song_time := t;
     current_song_time_listeners := current_song_time_listeners s;
     jumped := jumped s |}.

End Live.
Import Live.

(** ** The handler object and its effects *)

(** What the handler writes to its logger. *)
Inductive log_entry : Type :=
| Info_getting_track_data (properties : list value) (track_index_min track_index_max : Z)
| Info_removing_beat_listener
| Info_adding_beat_listener
| Error_unknown_object_identifier (obj : string).

(** An outbound OSC message: address and arguments. *)
Definition osc_message : Type := (string * list value)%type.

(** The [SongHandler] instance: the song it drives, its [last_song_time]
    field, the messages its OSC server has sent and the lines it has logged
    (both oldest first). *)
Record SongHandler : Type := {
  song : Song;
  last_song_time : Q;
  sent : list osc_message;
  logged : list log_entry
}.

Definition with_song (f : Song -> Song) (h : SongHandler) : SongHandler :=
  {| song := f (song h); last_song_time := last_song_time h;
     sent := sent h; logged := logged h |}.

Definition with_last_song_time (t : Q) (h : SongHandler) : SongHandler :=
  {| song := song h; last_song_time := t; sent := sent h; logged := logged h |}.

Definition with_sent (m : osc_message) (h : SongHandler) : SongHandler :=
  {| song := song h; last_song_time := last_song_time h;
     sent := sent h ++ [m]; logged := logged h |}.

Definition with_logged (e : log_entry) (h : SongHandler) : SongHandler :=
  {| song := song h; last_song_time := last_song_time h;
     sent := sent h; logged := logged h ++ [e] |}.

(** A method of the handler: it reads and updates the handler and either
    returns or raises; what was done before an exception stays done. *)
Definition M (A : Type) : Type := SongHandler -> result A * SongHandler.

Definition ret {A : Type} (a : A) : M A := fun h => (Ok a, h).

Definition raise {A : Type} (e : exn) : M A := fun h => (Raise e, h).

Definition bind {A B : Type} (m : M A) (k : A -> M B) : M B :=
  fun h => match m h with
           | (Ok a, h') => k a h'
           | (Raise e, h') => (Raise e, h')
           end.

Notation "'let*' x ':=' m 'in' k" := (bind m (fun x => k))
  (at level 10, x name, m at level 100, k at level 200, only parsing).
Notation "'exec' m 'in' k" := (bind m (fun _ => k))
  (at level 10, m at level 100, k at level 200, only parsing).

Definition lift {A : Type} (r : result A) : M A := fun h => (r, h).

Definition gets {A : Type} (f : SongHandler -> A) : M A := fun h => (Ok (f h), h).

Definition modify (f : SongHandler -> SongHandler) : M unit := fun h => (Ok tt, f h).

(** A call into the host that may raise; the song is replaced on success. *)
Definition host_call (f : Song -> result Song) : M unit :=
  fun h => match f (song h) with
           | Ok s' => (Ok tt, with_song (fun _ => s') h)
           | Raise e => (Raise e, h)
           end.

(** [try: body / except: pass]. *)
Definition try_except_pass (body : M unit) : M unit :=
  fun h => match body h with
           | (Ok _, h') => (Ok tt, h')
           | (Raise _, h') => (Ok tt, h')
           end.

(** [for x in xs: body], with the local variables the body updates. *)
Fixpoint for_in {A S : Type} (xs : list A) (body : A -> S -> M S) (acc : S) : M S :=
  match xs with
  | [] => ret acc
  | x :: xs' => let* acc' := body x acc in for_in xs' body acc'
  end.

Fixpoint for_each {A : Type} (xs : list A) (body : A -> M unit) : M unit :=
  match xs with
  | [] => ret tt
  | x :: xs' => exec body x in for_each xs' body
  end.

Definition logger_info (e : log_entry) : M unit := modify (with_logged e).
Definition logger_error (e : log_entry) : M unit := modify (with_logged e).
Definition osc_server_send (address : string) (args : list value) : M unit :=
  modify (with_sent (address, args)).

Section Handlers.

(** Python's [int()] on a string argument (a built-in, not repository
    code): [None] stands for [ValueError]. *)
Variable str_to_int : string -> option Z.

(** Whether the host refuses to connect a callback twice. *)
Variable host_strict : bool.

(** [int(v)] on an OSC argument. *)
Definition py_int (v : value) : result Z :=
  match v with
  | VInt z => Ok z
  | VBool b => Ok (if b then 1 else 0)
  | VFloat q => Ok (trunc q)
  | VStr s => match str_to_int s with Some z => Ok z | None => Raise ValueError end
  | VNone | VTrack _ | VObject _ => Raise TypeError
  end.

(** [prop.split(".")]: only strings have the method. *)
Definition split (prop : value) : result (list string) :=
  match prop with
  | VStr s => Ok (split_dot s)
  | _ => Raise AttributeError
  end.

(** *** /live/song/get/track_data *)

(** The body of [for prop in properties], for one track. *)
Definition track_data_prop (track : Track) (prop : value) (rv : list value)
  : M (list value) :=
  let* parts := lift (split prop) in
  match parts with
  | [obj; property_name] =>
      if String.eqb obj "track" then
        let* value := (if String.eqb property_name "num_devices" then
                    ret (VInt (Z.of_nat (length (devices track))))
                  else
                    let* value := lift (getattr (track_attrs track) property_name) in
                    match value with
                    | VTrack r =>
                        let* ts := gets (fun h => tracks (song h)) in
                        let* i := lift (index ts r) in
                        ret (VInt i)
                    | _ => ret value
                    end) in
        ret (rv ++ [value])
      else if String.eqb obj "clip" then
        for_in (clip_slots track)
          (fun clip_slot rv =>
             match clip clip_slot with
             | Some c =>
                 let* v := lift (getattr (clip_attrs c) property_name) in
                 ret (rv ++ [v])
             | None => ret (rv ++ [VNone])
             end) rv
      else if String.eqb obj "clip_slot" then
        for_in (clip_slots track)
          (fun clip_slot rv =>
             let* v := lift (getattr (clip_slot_attrs clip_slot) property_name) in
             ret (rv ++ [v])) rv
      else if String.eqb obj "device" then
        for_in (devices track)
          (fun device rv =>
             let* v := lift (getattr (device_attrs device) property_name) in
             ret (rv ++ [v])) rv
      else
        exec logger_error (Error_unknown_object_identifier obj) in
        ret rv
  | _ => raise ValueError
  end.

(** The body of [for track_index in range(...)]. *)
Definition track_data_track (properties : list value) (track_index : Z)
    (rv : list value) : M (list value) :=
  let* ts := gets (fun h => tracks (song h)) in
  let* track := lift (getitem ts track_index) in
  for_in properties (track_data_prop track) rv.

Definition song_get_track_data (params : list value) : M (list value) :=
  match params with
  | p_min :: p_max :: properties =>
      let* track_index_min := lift (py_int p_min) in
      let* track_index_max := lift (py_int p_max) in
      exec logger_info (Info_getting_track_data properties track_index_min track_index_max) in
      let* track_index_max := (if track_index_max =? -1 then
                            gets (fun h => Z.of_nat (length (tracks (song h))))
                          else ret track_index_max) in
      for_in (range track_index_min track_index_max)
        (track_data_track properties) []
  | _ => raise ValueError
  end.

(** *** /live/song/cue_point/jump *)

Definition song_jump_to_cue_point (params : list value) : M unit :=
  let* cue_point_index := lift (getitem params 0) in
  match cue_point_index with
  | VStr s =>
      let* cps := gets (fun h => cue_points (song h)) in
      for_each cps
        (fun cue_point =>
           if String.eqb (name cue_point) s
           then modify (with_song (jump cue_point))
           else ret tt)
  | VInt i =>
      let* cps := gets (fun h => cue_points (song h)) in
      let* cue_point := lift (getitem cps i) in
      modify (with_song (jump cue_point))
  | VBool b =>
      let* cps := gets (fun h => cue_points (song h)) in
      let* cue_point := lift (getitem cps (if b then 1 else 0)) in
      modify (with_song (jump cue_point))
  | _ => ret tt
  end.

(** *** The beat listener *)

(** The part of [init_api] that sets up the beat listener's state. *)
Definition init_api : M unit := modify (with_last_song_time (-1 # 1)).

Definition stop_beat_listener : M unit :=
  try_except_pass
    (exec host_call (remove_current_song_time_listener Bound_current_song_time_changed) in
     logger_info Info_removing_beat_listener).

Definition start_beat_listener : M unit :=
  exec stop_beat_listener in
  exec logger_info Info_adding_beat_listener in
  host_call (add_current_song_time_listener host_strict Bound_current_song_time_changed).

Definition current_song_time_changed : M unit :=
  let* now := gets (fun h => current_song_time (song h)) in
  let* last := gets last_song_time in
  exec (if float_lt now last || (trunc now >? trunc last) then
          osc_server_send "/live/song/get/beat" [VInt (trunc now)]
        else ret tt) in
  let* now := gets (fun h => current_song_time (song h)) in
  modify (with_last_song_time now).

(** The two addresses the OSC server routes to the beat listener. *)
Inductive beat_request : Type :=
| Start_listen_beat
| Stop_listen_beat.

Definition handle_beat_request (r : beat_request) : M unit :=
  match r with
  | Start_listen_beat => start_beat_listener
  | Stop_listen_beat => stop_beat_listener
  end.

(** The host reports a new song time: it moves the playhead and calls every
    registered listener, in registration order. *)
Definition call_listener (l : listener) : M unit :=
  match l with
  | Bound_current_song_time_changed => current_song_time_changed
  | Foreign_listener _ => ret tt
  end.

Definition notify_current_song_time (t : Q) : M unit :=
  exec modify (with_song (set_current_song_time t)) in
  let* ls := gets (fun h => current_song_time_listeners (song h)) in
  for_each ls call_listener.

End Handlers.

(** ** Notions used to state the properties *)

(** How often the handler's callback occurs in a listener list, and how often
    it is registered on the song. *)
Definition regs (ls : list listener) : nat :=
  length (filter (fun l => listener_eqb l Bound_current_song_time_changed = true) ls).

Definition registrations (s : Song) : nat := regs (current_song_time_listeners s).

(** The beat message for an integer beat, and for a song time. *)
Definition beat_at (n : Z) : osc_message := ("/live/song/get/beat"%string, [VInt n]).

Definition beat_message (t : Q) : osc_message := beat_at (trunc t).

(** The handler after one notification has reached its callback. *)
Definition after_notification (t : Q) (h : SongHandler) : SongHandler :=
  with_last_song_time t
    (if float_lt t (last_song_time h) || (trunc t >? trunc (last_song_time h))
     then with_sent (beat_message t) (with_song (set_current_song_time t) h)
     else with_song (set_current_song_time t) h).

(** The messages the handler sends while the host delivers one notification,
    and while it delivers a sequence of them. *)
Definition emitted_by (t : Q) (h : SongHandler) : list osc_message * SongHandler :=
  let h' := snd (notify_current_song_time t h) in
  (drop (length (sent h)) (sent h'), h').

Fixpoint deliver (ts : list Q) (h : SongHandler) : list (list osc_message) :=
  match ts with
  | [] => []
  | t :: ts' => fst (emitted_by t h) :: deliver ts' (snd (emitted_by t h))
  end.

(** The events a registered callback sends for a sequence of notifications,
    read off the stored time alone. *)
Fixpoint edges (ts : list Q) (last : Q) : list (list osc_message) :=
  match ts with
  | [] => []
  | t :: ts' =>
      (if float_lt t last || (trunc t >? trunc last) then [beat_message t] else [])
      :: edges ts' t
  end.

(** [x] is the binary64 float nearest to the decimal [dec]: a mantissa [m]
    of 53 bits over [2 ^ e], within half a unit in the last place of [dec]. *)
Definition nearest_binary64 (x dec : Q) : Prop :=
  exists m e : Z,
    0 <= e
    /\ 2 ^ 52 <= m < 2 ^ 53
    /\ Qnum x * 2 ^ e = m * Z.pos (Qden x)
    /\ (Qabs (x - dec) * inject_Z (2 ^ (e + 1)) <= 1)%Q.

(** The handler after a sequence of beat requests. *)
Fixpoint handle_all (strict : bool) (rs : list beat_request) (h : SongHandler)
  : SongHandler :=
  match rs with
  | [] => h
  | r :: rs' => handle_all strict rs' (snd (handle_beat_request strict r h))
  end.

(** The song after [jump()] has been called on each of [cs] in turn. *)
Definition jump_all (cs : list CuePoint) (s : Song) : Song :=
  fold_left (fun s c => jump c s) cs s.

(** The handler with some more lines in its log. *)
Definition add_logs (l : list log_entry) (h : SongHandler) : SongHandler :=
  {| song := song h; last_song_time := last_song_time h;
     sent := sent h; logged := logged h ++ l |}.

(** [rv] extended by the values of [r], or the exception of [r]. *)
Definition extend (rv : list value) (r : result (list value)) : result (list value) :=
  match r with
  | Ok vs => Ok (rv ++ vs)
  | Raise e => Raise e
  end.

(** A piece of the query that, on the song [s], does nothing but append the
    values of [r] to [rv] (or raise as [r] does) and write to the log. *)
Definition appends_values (s : Song) (m : list value -> M (list value))
    (r : result (list value)) : Prop :=
  exists l, forall rv h, song h = s -> m rv h = (extend rv r, add_logs l h).

(** The track_data response as the design describes it: for each track index
    of the range in turn, for each token in request order, the values of that
    token on that track, all concatenated; the first failure ends the query. *)
Fixpoint collect {A : Type} (f : A -> result (list value)) (xs : list A)
  : result (list value) :=
  match xs with
  | [] => Ok []
  | x :: xs' =>
      match f x with
      | Ok vs => extend vs (collect f xs')
      | Raise e => Raise e
      end
  end.

Definition prop_values (h : SongHandler) (track : Track) (prop : value)
  : result (list value) :=
  fst (track_data_prop track prop [] h).

Definition track_values (h : SongHandler) (properties : list value) (track_index : Z)
  : result (list value) :=
  match getitem (tracks (song h)) track_index with
  | Ok track => collect (prop_values h track) properties
  | Raise e => Raise e
  end.

Definition track_major_token_minor (h : SongHandler) (track_index_min track_index_max : Z)
    (properties : list value) : result (list value) :=
  let upper := if track_index_max =? -1
               then Z.of_nat (length (tracks (song h)))
               else track_index_max in
  collect (track_values h properties) (range track_index_min upper).

(** The entity keywords the query language knows. *)
Definition known_entity (obj : string) : bool :=
  String.eqb obj "track" || String.eqb obj "clip"
  || String.eqb obj "clip_slot" || String.eqb obj "device".

(** The loop body [track_data_prop] read as a function of the song: the
    values a token contributes on a track, and the lines it logs. The lemma
    [track_data_prop_run] shows that the body computes exactly this. *)
Definition one (r : result value) : result (list value) :=
  match r with
  | Ok v => Ok [v]
  | Raise e => Raise e
  end.

Definition track_token_value (s : Song) (track : Track) (property_name : string)
  : result value :=
  if String.eqb property_name "num_devices"
  then Ok (VInt (Z.of_nat (length (devices track))))
  else match getattr (track_attrs track) property_name with
       | Ok (VTrack r) =>
           match index (tracks s) r with
           | Ok i => Ok (VInt i)
           | Raise e => Raise e
           end
       | Ok v => Ok v
       | Raise e => Raise e
       end.

Definition clip_token_value (property_name : string) (clip_slot : ClipSlot)
  : result value :=
  match clip clip_slot with
  | Some c => getattr (clip_attrs c) property_name
  | None => Ok VNone
  end.

Definition token_values (s : Song) (track : Track) (prop : value)
  : result (list value) :=
  match split prop with
  | Ok [obj; property_name] =>
      if String.eqb obj "track" then one (track_token_value s track property_name)
      else if String.eqb obj "clip" then
        collect (fun clip_slot => one (clip_token_value property_name clip_slot))
          (clip_slots track)
      else if String.eqb obj "clip_slot" then
        collect (fun clip_slot => one (getattr (clip_slot_attrs clip_slot) property_name))
          (clip_slots track)
      else if String.eqb obj "device" then
        collect (fun device => one (getattr (device_attrs device) property_name))
          (devices track)
      else Ok []
  | Ok _ => Raise ValueError
  | Raise e => Raise e
  end.

Definition token_logs (prop : value) : list log_entry :=
  match split prop with
  | Ok [obj; _] => if known_entity obj then [] else [Error_unknown_object_identifier obj]
  | _ => []
  end.

(** What a [clip.<prop>] token yields for one clip slot. *)
Definition clip_or_null (property_name : string) (clip_slot : ClipSlot) (v : value) : Prop :=
  match clip clip_slot with
  | Some c => clip_attrs c !! property_name = Some v
  | None => v = VNone
  end.

(** A token that splits into exactly two parts around one dot. *)
Definition well_formed_token (s : string) : bool :=
  match split_dot s with
  | [_; _] => true
  | _ => false
  end.

(** ** Concrete sessions used to exercise the handlers *)

Module Examples.

Definition named_clip (n : string) : Clip :=
  {| clip_attrs := {[ "name"%string := VStr n ]} |}.

Definition slot (c : option Clip) : ClipSlot :=
  {| clip_slot_attrs := {[ "has_clip"%string := VBool (bool_decide (is_Some c)) ]};
     clip := c |}.

Definition device_named (n : string) : Device :=
  {| device_attrs := {[ "name"%string := VStr n ]} |}.

(** Track 0 holds clip "A" in its first slot, track 1 holds clip "B" in its
    second slot; track 1 sits in the group track 0 and has one device. *)
Definition track0 : Track :=
  {| track_ref := 10%nat;
     track_attrs := {[ "name"%string := VStr "Drums" ]};
     clip_slots := [slot (Some (named_clip "A")); slot None];
     devices := [] |}.

Definition track1 : Track :=
  {| track_ref := 11%nat;
     track_attrs := <[ "group_track"%string := VTrack 10%nat ]>
                      {[ "name"%string := VStr "Kick" ]};
     clip_slots := [slot None; slot (Some (named_clip "B"))];
     devices := [device_named "Compressor"] |}.

Definition cue (r : ref) (n : string) (t : Q) : CuePoint :=
  {| cue_ref := r; name := n; time := t |}.

Definition two_tracks : Song :=
  {| tracks := [track0; track1];
     cue_points := [cue 20%nat "intro" (0 # 1); cue 21%nat "drop" (16 # 1);
                    cue 22%nat "intro" (32 # 1)];
     current_song_time := (0 # 1);
     current_song_time_listeners := [];
     jumped := [] |}.

(** A handler on the song [s] right after [init_api]: nothing sent, nothing
    logged. *)
Definition fresh (s : Song) : SongHandler :=
  {| song := s; last_song_time := (-1 # 1); sent := []; logged := [] |}.

(** A stand-in for [int()] on strings that accepts nothing. *)
Definition no_str_to_int : string -> option Z := fun _ => None.

(** The binary64 floats Python reads for the literals 0.4, 0.9, 1.1 and 0.2,
    each given exactly: a 53-bit mantissa over a power of two. *)
Definition float_0_4 : Q := 3602879701896397 # 9007199254740992.
Definition float_0_9 : Q := 8106479329266893 # 9007199254740992.
Definition float_1_1 : Q := 2476979795053773 # 2251799813685248.
Definition float_0_2 : Q := 3602879701896397 # 18014398509481984.

(** The notifications of the beat scenario: 0.4, 0.9, 1.1, 1.1, 0.2, as the
    floats the handler receives. *)
Definition beat_times : list Q :=
  [float_0_4; float_0_9; float_1_1; float_1_1; float_0_2].

(** The handler after [init_api] and a start_listen beat request, and after
    one more notification at song time 1.1. *)
Definition listening : SongHandler :=
  snd (start_beat_listener false (snd (init_api (fresh two_tracks)))).

Definition played : SongHandler :=
  snd (notify_current_song_time (11 # 10) listening).

(** Some beat requests. *)
Definition requests : list beat_request :=
  [Stop_listen_beat; Start_listen_beat; Start_listen_beat; Stop_listen_beat;
   Stop_listen_beat; Start_listen_beat].

End Examples.

(** ** The remaining handlers of [init_api] *)

(** *** More of Python *)

(** The truth value of [v], [operator.index(v)] (what [range] and sequence
    indexing accept), the operand of an integer shift, and [v == z] for an
    integer [z]. *)
Definition truthy (v : value) : bool :=
  match v with
  | VNone => false
  | VBool b => b
  | VInt z => negb (z =? 0)
  | VFloat q => negb (Qeq_bool q 0)
  | VStr s => negb (String.eqb s "")
  | VTrack _ | VObject _ => true
  end.

Definition as_index (v : value) : result Z :=
  match v with
  | VInt z => Ok z
  | VBool b => Ok (if b then 1 else 0)
  | _ => Raise TypeError
  end.

Definition eq_int (v : value) (z : Z) : bool :=
  match v with
  | VInt x => x =? z
  | VBool b => (if b then 1 else 0) =? z
  | VFloat q => Qeq_bool q (inject_Z z)
  | _ => false
  end.

(** ["%d" % n] for an index [n]. *)
Definition format_d (n : nat) : string :=
  DecimalString.NilEmpty.string_of_uint (Nat.to_uint n).

(** ["%02x" % b]; the handlers only format operands masked with [0xFF], for
    which the result is exactly the two lower-case hexadecimal digits. *)
Definition hex_digits : string := "0123456789abcdef".

Definition hex_digit (n : Z) : ascii :=
  match String.get (Z.to_nat n) hex_digits with
  | Some a => a
  | None => "f"%char
  end.

Definition format_02x (b : Z) : string :=
  String (hex_digit (b / 16)) (String (hex_digit (b mod 16)) EmptyString).

(** ["#%02x%02x%02x" % ((c >> 16) & 0xFF, (c >> 8) & 0xFF, c & 0xFF)]. *)
Definition color_hex (c : Z) : string :=
  String "#"%char
    (format_02x (Z.land (Z.shiftr c 16) 255)
     +:+ format_02x (Z.land (Z.shiftr c 8) 255)
     +:+ format_02x (Z.land c 255)).

(** Sequencing of computations that only read the song. *)
Definition rbind {A B : Type} (r : result A) (k : A -> result B) : result B :=
  match r with
  | Ok a => k a
  | Raise e => Raise e
  end.

Notation "'let?' x ':=' r 'in' k" := (rbind r (fun x => k))
  (at level 10, x name, r at level 100, k at level 200, only parsing).

(** A generator consumed by [tuple(...)]: the first exception ends it. *)
Fixpoint traverse {A B : Type} (f : A -> result B) (xs : list A) : result (list B) :=
  match xs with
  | [] => Ok []
  | x :: xs' =>
      let? y := f x in
      let? ys := traverse f xs' in
      Ok (y :: ys)
  end.

(** [for i, x in enumerate(xs)] from the index [i], with the local variables
    the body updates; the body may [break]. *)
Inductive flow : Type :=
| Continue
| Break.

Fixpoint for_enumerate {A St : Type} (i : nat) (xs : list A)
    (body : nat -> A -> St -> result (flow * St)) (acc : St) : result St :=
  match xs with
  | [] => Ok acc
  | x :: xs' =>
      let? step := body i x acc in
      match fst step with
      | Continue => for_enumerate (S i) xs' body (snd step)
      | Break => Ok (snd step)
      end
  end.

(** A [dict] with string keys: assignment replaces the value of a key that
    is present and appends a new key at the end. *)
Definition dict : Type := list (string * value).

Fixpoint dict_set (k : string) (v : value) (d : dict) : dict :=
  match d with
  | [] => [(k, v)]
  | (k', v') :: d' =>
      if String.eqb k' k then (k, v) :: d' else (k', v') :: dict_set k v d'
  end.

Fixpoint dict_get (k : string) (d : dict) : option value :=
  match d with
  | [] => None
  | (k', v') :: d' => if String.eqb k' k then Some v' else dict_get k d'
  end.

(** The data handed to [json.dumps]. *)
#[warnings="-register-all"]
Inductive json : Type :=
| JValue (v : value)
| JList (l : list json)
| JDict (d : list (string * json)).

Definition json_of_dict (d : dict) : json :=
  JDict (map (fun kv => (fst kv, JValue (snd kv))) d).

(** *** More of the host *)

Record Scene : Type := { scene_attrs : gmap string value }.

(** The attributes of the song object that only the scene and snapshot
    handlers read; they sit beside [Song]. *)
Record SongRest : Type := {
  scenes : list Scene;
  root_note : value;
  scale_name : value
}.

(** [song.cue_points[i].name = n] for an index that [getitem] accepts. *)
Definition rename_cue (n : string) (c : CuePoint) : CuePoint :=
  {| cue_ref := cue_ref c; name := n; time := time c |}.

Definition set_cue_point_name (i : Z) (n : string) (s : Song) : Song :=
  let len := Z.of_nat (length (cue_points s)) in
  let j := if i <? 0 then i + len else i in
  {| tracks := tracks s;
     cue_points := alter (rename_cue n) (Z.to_nat j) (cue_points s);
     current_song_time := current_song_time s;
     current_song_time_listeners := current_song_time_listeners s;
     jumped := jumped s |}.

(** *** /live/song/get/num_tracks, track_names, num_scenes, scenes/name *)

Definition song_get_num_tracks (s : Song) : list value :=
  [VInt (Z.of_nat (length (tracks s)))].

Definition song_get_num_scenes (x : SongRest) : list value :=
  [VInt (Z.of_nat (length (scenes x)))].

(** [tuple(xs[index].name for index in range(lo, hi))]. *)
Definition names_in_range {A : Type} (attrs : A -> gmap string value) (xs : list A)
    (lo hi : value) : result (list value) :=
  let? lo := as_index lo in
  let? hi := as_index hi in
  traverse (fun index => let? x := getitem xs index in getattr (attrs x) "name")
    (range lo hi).

Definition song_get_track_names (s : Song) (params : list value) : result (list value) :=
  match params with
  | [] => names_in_range track_attrs (tracks s) (VInt 0) (VInt (Z.of_nat (length (tracks s))))
  | [track_index_min; track_index_max] =>
      let track_index_max :=
        if eq_int track_index_max (-1)
        then VInt (Z.of_nat (length (tracks s)))
        else track_index_max in
      names_in_range track_attrs (tracks s) track_index_min track_index_max
  | _ => Raise ValueError
  end.

Definition song_get_scene_names (x : SongRest) (params : list value) : result (list value) :=
  match params with
  | [] => names_in_range scene_attrs (scenes x) (VInt 0) (VInt (Z.of_nat (length (scenes x))))
  | [scene_index_min; scene_index_max] =>
      names_in_range scene_attrs (scenes x) scene_index_min scene_index_max
  | _ => Raise ValueError
  end.

(** *** /live/song/get/cue_points and /live/song/cue_point/set/name *)

Definition song_get_cue_points (s : Song) : list value :=
  let cue_point_pairs :=
    map (fun cue_point => (VStr (name cue_point), VFloat (time cue_point)))
      (cue_points s) in
  concat (map (fun pair => [fst pair; snd pair]) cue_point_pairs).

(** The host only takes a string as the name of a cue point. *)
Definition song_cue_point_set_name (params : list value) : M unit :=
  let* cue_point_index := lift (getitem params 0) in
  let* new_name := lift (getitem params 1) in
  let* cps := gets (fun h => cue_points (song h)) in
  let* i := lift (as_index cue_point_index) in
  let* cue_point := lift (getitem cps i) in
  match new_name with
  | VStr n => modify (with_song (set_cue_point_name i n))
  | _ => raise TypeError
  end.

(** *** /live/song/get/session_info and /live/song/get/clip_grid *)

(** The operand of [c >> 16]. *)
Definition color_of (v : value) : result Z := as_index v.

Definition session_info_track (track : Track)
    (acc : list value * list string * list bool)
  : result (list value * list string * list bool) :=
  let '(track_names, track_colors, midi_tracks) := acc in
  let? track_name := getattr (track_attrs track) "name" in
  let track_names := track_names ++ [track_name] in
  let? c := getattr (track_attrs track) "color" in
  let? c := color_of c in
  let track_colors := track_colors ++ [color_hex c] in
  let? has_midi_input := getattr (track_attrs track) "has_midi_input" in
  Ok (track_names, track_colors, midi_tracks ++ [truthy has_midi_input]).

Fixpoint session_info_tracks (ts : list Track)
    (acc : list value * list string * list bool)
  : result (list value * list string * list bool) :=
  match ts with
  | [] => Ok acc
  | track :: ts' =>
      let? acc' := session_info_track track acc in
      session_info_tracks ts' acc'
  end.

Definition session_info_data (s : Song) (x : SongRest) : result json :=
  let num_scenes := length (scenes x) in
  let? lists := session_info_tracks (tracks s) ([], [], []) in
  let '(track_names, track_colors, midi_tracks) := lists in
  Ok (JDict
        [("track_names"%string, JList (map JValue track_names));
         ("track_colors"%string, JList (map (fun c => JValue (VStr c)) track_colors));
         ("midi_tracks"%string, JList (map (fun b => JValue (VBool b)) midi_tracks));
         ("num_scenes"%string, JValue (VInt (Z.of_nat num_scenes)));
         ("root_note"%string, JValue (root_note x));
         ("scale_name"%string, JValue (scale_name x))]).

(** ["%d,%d" % (track_idx, slot_idx)]. *)
Definition grid_key (track_idx slot_idx : nat) : string :=
  format_d track_idx +:+ "," +:+ format_d slot_idx.

(** The body of the loop over the clip slots of one track. *)
Definition clip_grid_slot (num_scenes track_idx slot_idx : nat) (clip_slot : ClipSlot)
    (acc : dict * dict) : result (flow * (dict * dict)) :=
  if (num_scenes <=? slot_idx)%nat then Ok (Break, acc)
  else
    match clip clip_slot with
    | Some c =>
        let key := grid_key track_idx slot_idx in
        let? clip_name := getattr (clip_attrs c) "name" in
        let clips :=
          dict_set key (if truthy clip_name then clip_name else VStr "(unnamed)")
            (fst acc) in
        let? color := getattr (clip_attrs c) "color" in
        let? color := color_of color in
        Ok (Continue, (clips, dict_set key (VStr (color_hex color)) (snd acc)))
    | None => Ok (Continue, acc)
    end.

Definition clip_grid_track (num_scenes track_idx : nat) (track : Track)
    (acc : dict * dict) : result (flow * (dict * dict)) :=
  let? acc' := for_enumerate 0 (clip_slots track)
                 (clip_grid_slot num_scenes track_idx) acc in
  Ok (Continue, acc').

Definition clip_grid_dicts (s : Song) (x : SongRest) : result (dict * dict) :=
  let num_scenes := length (scenes x) in
  for_enumerate 0 (tracks s) (clip_grid_track num_scenes) ([], []).

Definition clip_grid_data (s : Song) (x : SongRest) : result json :=
  let? dicts := clip_grid_dicts s x in
  Ok (JDict [("clips"%string, json_of_dict (fst dicts));
             ("clip_colors"%string, json_of_dict (snd dicts))]).

Section Snapshots.

(** Python's [json.dumps] (standard library, not repository code). *)
Variable json_dumps : json -> result string.

Definition session_info (s : Song) (x : SongRest) : result (list value) :=
  let? data := session_info_data s x in
  let? text := json_dumps data in
  Ok [VStr text].

Definition clip_grid (s : Song) (x : SongRest) : result (list value) :=
  let? data := clip_grid_data s x in
  let? text := json_dumps data in
  Ok [VStr text].

End Snapshots.

(** *** clear_api *)

Section Teardown.

(** [super().clear_api()], defined in the base handler class. *)
Variable super_clear_api : M unit.

Definition clear_api : M unit :=
  exec super_clear_api in
  try_except_pass
    (host_call (remove_current_song_time_listener Bound_current_song_time_changed)).

End Teardown.

(** ** Notions used to state the further properties *)

(** Reading a colour string back. *)
Fixpoint position (a : ascii) (s : string) (i : Z) : option Z :=
  match s with
  | EmptyString => None
  | String b s' => if Ascii.eqb a b then Some i else position a s' (i + 1)
  end.

Definition hex_value (a : ascii) : option Z := position a hex_digits 0.

Fixpoint hex_number (s : string) (acc : Z) : option Z :=
  match s with
  | EmptyString => Some acc
  | String a s' =>
      match hex_value a with
      | Some d => hex_number s' (16 * acc + d)
      | None => None
      end
  end.

Definition parse_color (s : string) : option Z :=
  match s with
  | String "#"%char digits =>
      if (String.length digits =? 6)%nat then hex_number digits 0 else None
  | _ => None
  end.

(** The beats announced by a sequence of notifications. *)
Definition beat_of (m : osc_message) : option Z :=
  match snd m with
  | [VInt n] => Some n
  | _ => None
  end.

Definition beats (events : list (list osc_message)) : list Z :=
  omap beat_of (concat events).

(** The clip in cell ([track_idx], [slot_idx]) of the session grid, if the
    slot lies within the scenes and holds a clip. *)
Definition grid_clip (s : Song) (x : SongRest) (track_idx slot_idx : nat) : option Clip :=
  match tracks s !! track_idx with
  | Some track =>
      if (slot_idx <? length (scenes x))%nat
      then match clip_slots track !! slot_idx with
           | Some clip_slot => clip clip_slot
           | None => None
           end
      else None
  | None => None
  end.

(** What [clip_grid] stores for a clip: its name, or the placeholder. *)
Definition grid_name (c : Clip) (v : value) : Prop :=
  exists clip_name,
    clip_attrs c !! "name"%string = Some clip_name
    /\ v = if truthy clip_name then clip_name else VStr "(unnamed)".

(** The handler after the host has delivered a sequence of notifications. *)
Definition after_notifications (ts : list Q) (h : SongHandler) : SongHandler :=
  fold_left (fun h t => snd (notify_current_song_time t h)) ts h.

(** Song times that never go back, starting from [last]; beats that only go
    up, starting above [b]. *)
Fixpoint nondecreasing (last : Q) (ts : list Q) : Prop :=
  match ts with
  | [] => True
  | t :: ts' => (last <= t)%Q /\ nondecreasing t ts'
  end.

Fixpoint ascending_from (b : Z) (bs : list Z) : Prop :=
  match bs with
  | [] => True
  | x :: bs' => b < x /\ ascending_from x bs'
  end.

(** What [session_info] reports for one track, and for the track list: the
    three arrays run parallel to the tracks. *)
Definition track_summary (t : Track) (track_name : value) (color : string)
    (midi : bool) : Prop :=
  track_attrs t !! "name"%string = Some track_name
  /\ (exists cv c, track_attrs t !! "color"%string = Some cv
                   /\ color_of cv = Ok c /\ color = color_hex c)
  /\ (exists flag, track_attrs t !! "has_midi_input"%string = Some flag
                   /\ midi = truthy flag).

Fixpoint summaries (ts : list Track) (track_names : list value)
    (track_colors : list string) (midi_tracks : list bool) : Prop :=
  match ts, track_names, track_colors, midi_tracks with
  | [], [], [], [] => True
  | t :: ts', n :: ns, c :: cs, m :: ms =>
      track_summary t n c m /\ summaries ts' ns cs ms
  | _, _, _, _ => False
  end.

Definition session_info_json (x : SongRest) (track_names : list value)
    (track_colors : list string) (midi_tracks : list bool) : json :=
  JDict
    [("track_names"%string, JList (map JValue track_names));
     ("track_colors"%string, JList (map (fun c => JValue (VStr c)) track_colors));
     ("midi_tracks"%string, JList (map (fun b => JValue (VBool b)) midi_tracks));
     ("num_scenes"%string, JValue (VInt (Z.of_nat (length (scenes x)))));
     ("root_note"%string, JValue (root_note x));
     ("scale_name"%string, JValue (scale_name x))].

(** What [clip_grid] stores as the colour of a clip, and the clips it can
    describe. *)
Definition grid_color (c : Clip) (v : value) : Prop :=
  exists cv z,
    clip_attrs c !! "color"%string = Some cv
    /\ color_of cv = Ok z
    /\ v = VStr (color_hex z).

Definition describable (c : Clip) : Prop :=
  (exists v, grid_name c v) /\ (exists v, grid_color c v).

(** Whether a string contains a comma. *)
Fixpoint has_comma (s : string) : bool :=
  match s with
  | EmptyString => false
  | String a s' => Ascii.eqb a ","%char || has_comma s'
  end.

(** The cells a part of the [clip_grid] loops goes through: the occupied
    slots of one track from slot index [j0] on, and those of the tracks from
    track index [i0] on, always within the first [n] scenes. *)
Definition slot_cells (n i j0 : nat) (slots : list ClipSlot) (k : string) (c : Clip)
  : Prop :=
  exists d clip_slot,
    slots !! d = Some clip_slot /\ clip clip_slot = Some c
    /\ (j0 + d < n)%nat /\ k = grid_key i (j0 + d).

Definition track_cells (n i0 : nat) (ts : list Track) (k : string) (c : Clip) : Prop :=
  exists e track,
    ts !! e = Some track /\ slot_cells n (i0 + e) 0 (clip_slots track) k c.

(** The two dictionaries after a part of the loops that went through the
    cells [P]: every cell of [P] is stored under its key with its name and
    colour, no other key is touched or added, and the dictionaries keep
    parallel keys. *)
Definition stores (P : string -> Clip -> Prop) (before after : dict * dict) : Prop :=
  (forall k c, P k c ->
     exists v col,
       dict_get k (fst after) = Some v /\ grid_name c v
       /\ dict_get k (snd after) = Some col /\ grid_color c col)
  /\ (forall k, (forall c, ~ P k c) ->
        dict_get k (fst after) = dict_get k (fst before)
        /\ dict_get k (snd after) = dict_get k (snd before))
  /\ (map fst (fst before) = map fst (snd before) ->
      map fst (fst after) = map fst (snd after))
  /\ (forall k, k ∈ map fst (fst after) ->
        k ∈ map fst (fst before) \/ exists c, P k c).

(** *** The addresses [init_api] registers *)

Definition methods : list string :=
  ["capture_and_insert_scene"; "capture_midi"; "continue_playing";
   "create_audio_track"; "create_midi_track"; "create_return_track";
   "create_scene"; "delete_return_track"; "delete_scene"; "delete_track";
   "duplicate_scene"; "duplicate_track"; "force_link_beat_time"; "jump_by";
   "jump_to_prev_cue"; "jump_to_next_cue"; "redo"; "re_enable_automation";
   "set_or_delete_cue"; "start_playing"; "stop_all_clips"; "stop_playing";
   "tap_tempo"; "trigger_session_record"; "undo"]%string.

Definition properties_rw : list string :=
  ["arrangement_overdub"; "back_to_arranger"; "clip_trigger_quantization";
   "current_song_time"; "groove_amount"; "is_ableton_link_enabled"; "loop";
   "loop_length"; "loop_start"; "metronome"; "midi_recording_quantization";
   "nudge_down"; "nudge_up"; "punch_in"; "punch_out"; "record_mode";
   "root_note"; "scale_name"; "session_record"; "signature_denominator";
   "signature_numerator"; "tempo"]%string.

Definition properties_r : list string :=
  ["can_redo"; "can_undo"; "is_playing"; "name"; "file_path"; "song_length";
   "session_record_status"]%string.

(** What an address is bound to: a method of the base handler class applied
    to the song and a name, or a function defined in [init_api]. *)
Inductive callback : Type :=
| Call_method (method : string)
| Get_property (prop : string)
| Start_listen (prop : string)
| Stop_listen (prop : string)
| Set_property (prop : string)
| Local_function (function : string).

(** The calls of [osc_server.add_handler], in the order [init_api] makes
    them. *)
Definition add_handler_calls : list (string * callback) :=
  map (fun method => ("/live/song/" +:+ method, Call_method method)) methods
  ++ concat
       (map (fun prop =>
               [("/live/song/get/" +:+ prop, Get_property prop);
                ("/live/song/start_listen/" +:+ prop, Start_listen prop);
                ("/live/song/stop_listen/" +:+ prop, Stop_listen prop)])
          (properties_r ++ properties_rw))
  ++ map (fun prop => ("/live/song/set/" +:+ prop, Set_property prop)) properties_rw
  ++ [("/live/song/get/num_tracks", Local_function "lambda");
      ("/live/song/get/track_names", Local_function "song_get_track_names");
      ("/live/song/get/session_info", Local_function "session_info");
      ("/live/song/get/clip_grid", Local_function "clip_grid");
      ("/live/song/get/track_data", Local_function "song_get_track_data");
      ("/live/song/export/structure", Local_function "song_export_structure");
      ("/live/song/get/num_scenes", Local_function "lambda");
      ("/live/song/get/scenes/name", Local_function "song_get_scene_names");
      ("/live/song/get/cue_points", Local_function "song_get_cue_points");
      ("/live/song/cue_point/jump", Local_function "song_jump_to_cue_point");
      ("/live/song/cue_point/add_or_delete", Call_method "set_or_delete_cue");
      ("/live/song/cue_point/set/name", Local_function "song_cue_point_set_name");
      ("/live/song/start_listen/beat", Local_function "start_beat_listener");
      ("/live/song/stop_listen/beat", Local_function "stop_beat_listener")]%string.

(** The rest of [a] after the prefix [pre], if [a] starts with it. *)
Fixpoint strip_prefix (pre a : string) : option string :=
  match pre, a with
  | EmptyString, _ => Some a
  | String c pre', String c' a' =>
      if Ascii.eqb c c' then strip_prefix pre' a' else None
  | String _ _, EmptyString => None
  end.

Module MoreExamples.

Definition scene (n : string) : Scene :=
  {| scene_attrs := {[ "name"%string := VStr n ]} |}.

Definition two_scenes : SongRest :=
  {| scenes := [scene "Verse"; scene "Chorus"];
     root_note := VInt 0;
     scale_name := VStr "Major" |}.

(** A track with a name, a colour and the MIDI flag, and three clip slots of
    which the last lies beyond the two scenes. *)
Definition coloured_clip (n : string) (c : Z) : Clip :=
  {| clip_attrs := <[ "color"%string := VInt c ]> {[ "name"%string := VStr n ]} |}.

Definition coloured_track : Track :=
  {| track_ref := 12%nat;
     track_attrs := <[ "has_midi_input"%string := VBool true ]>
                      (<[ "color"%string := VInt 16744448 ]>
                         {[ "name"%string := VStr "Bass" ]});
     clip_slots := [Examples.slot (Some (coloured_clip "" 255));
                    Examples.slot None;
                    Examples.slot (Some (coloured_clip "late" 0))];
     devices := [] |}.

Definition one_track : Song :=
  {| tracks := [coloured_track];
     cue_points := [Examples.cue 20%nat "intro" (0 # 1); Examples.cue 21%nat "drop" (16 # 1)];
     current_song_time := (0 # 1);
     current_song_time_listeners := [];
     jumped := [] |}.

(** A base class whose [clear_api] does nothing. *)
Definition no_super : M unit := ret tt.

(** A track routed to a return track, which is not in the song's track
    list. *)
Definition routed_track : Track :=
  {| track_ref := 13%nat;
     track_attrs := <[ "output"%string := VTrack 99%nat ]>
                      {[ "name"%string := VStr "Pad" ]};
     clip_slots := [];
     devices := [Examples.device_named "Reverb"; Examples.device_named "Delay"] |}.

(** Song times of a forward playback. *)
Definition forward_times : list Q := [1 # 2; 3 # 2; 7 # 4; 5 # 1; 5 # 1; 21 # 4]%Q.

End MoreExamples.

(** * Properties *)

(** ** Floats: comparison and truncation *)

Lemma float_lt_iff (x y : Q) : float_lt x y = true <-> (x < y)%Q.
Proof.
  unfold float_lt. rewrite negb_true_iff.
  destruct (Qle_bool y x) eqn:E.
  - apply Qle_bool_iff in E. split; [discriminate |].
    intros H. exfalso. exact (Qlt_not_le _ _ H E).
  - split; [| reflexivity]. intros _.
    apply Qnot_le_lt. intros H. apply Qle_bool_iff in H. congruence.
Qed.

Lemma Qfloor_nonneg (x : Q) : 0 <= Qnum x -> 0 <= Qfloor x.
Proof.
  destruct x as [n d]. simpl. intros H. apply Z.div_pos; lia.
Qed.

Lemma Qceiling_nonpos (x : Q) : Qnum x < 0 -> Qceiling x <= 0.
Proof.
  destruct x as [n d]. unfold Qceiling. simpl. intros H.
  assert (0 <= (- n) / Z.pos d) by (apply Z.div_pos; lia). lia.
Qed.

(** Truncation towards zero is monotone. *)
Lemma trunc_le (x y : Q) : (x <= y)%Q -> trunc x <= trunc y.
Proof.
  intros H. unfold trunc.
  destruct (Z.leb_spec 0 (Qnum x)) as [Hx | Hx];
    destruct (Z.leb_spec 0 (Qnum y)) as [Hy | Hy].
  - by apply Qfloor_resp_le.
  - exfalso. unfold Qle in H.
    assert (0 <= Qnum x * Z.pos (Qden y)) by nia.
    assert (Qnum y * Z.pos (Qden x) < 0) by nia. lia.
  - pose proof (Qceiling_nonpos x Hx). pose proof (Qfloor_nonneg y Hy). lia.
  - by apply Qceiling_resp_le.
Qed.

(** The test of [current_song_time_changed], in words: the integer beat
    changed or the time went back. *)
Lemma beat_edge_iff (now last : Q) :
  float_lt now last || (trunc now >? trunc last) = true
  <-> trunc now <> trunc last \/ (now < last)%Q.
Proof.
  rewrite orb_true_iff, float_lt_iff, Z.gtb_ltb, Z.ltb_lt. split.
  - intros [H | H]; [by right | left; lia].
  - intros [H | H]; [| by left].
    destruct (Qlt_le_dec now last) as [Hlt | Hle]; [by left | right].
    pose proof (trunc_le _ _ Hle). lia.
Qed.

(** ** The beat listener *)

Lemma current_song_time_changed_run (h : SongHandler) :
  current_song_time_changed h =
    (Ok tt,
     with_last_song_time (current_song_time (song h))
       (if float_lt (current_song_time (song h)) (last_song_time h)
           || (trunc (current_song_time (song h)) >? trunc (last_song_time h))
        then with_sent (beat_message (current_song_time (song h))) h
        else h)).
Proof.
  unfold current_song_time_changed, bind, gets, osc_server_send, modify, ret.
  simpl. by destruct (_ || _).
Qed.

Lemma app_singleton_neq {A : Type} (l : list A) (x : A) : l ++ [x] <> l.
Proof.
  intros H. apply (f_equal length) in H. rewrite length_app in H. simpl in H. lia.
Qed.

(** C2. One notification with stored time [t_prev] and new time [t_new]: the
    callback returns normally, the stored time becomes [t_new] whether or not
    an event was sent, at most the one beat message for [t_new] is sent, and it
    is sent exactly when the integer part of [t_new] differs from that of
    [t_prev] or [t_new] is strictly below [t_prev]. *)
Theorem beat_event_iff_edge (h : SongHandler) (t_new : Q) :
  let t_prev := last_song_time h in
  let h' := snd (current_song_time_changed (with_song (set_current_song_time t_new) h)) in
  fst (current_song_time_changed (with_song (set_current_song_time t_new) h)) = Ok tt
  /\ last_song_time h' = t_new
  /\ (sent h' = sent h ++ [beat_message t_new] \/ sent h' = sent h)
  /\ (sent h' = sent h ++ [beat_message t_new]
      <-> trunc t_new <> trunc t_prev \/ (t_new < t_prev)%Q).
Proof.
  intros t_prev h'. subst h'. rewrite current_song_time_changed_run. simpl.
  fold t_prev. rewrite <- beat_edge_iff.
  destruct (float_lt t_new t_prev || (trunc t_new >? trunc t_prev)); simpl.
  - repeat split; auto.
  - repeat split; auto; try discriminate.
    intros H. symmetry in H. by apply app_singleton_neq in H.
Qed.

(** *** Registration bookkeeping *)

Lemma regs_cons (l : listener) (ls : list listener) :
  regs (l :: ls) =
    if listener_eqb l Bound_current_song_time_changed then S (regs ls) else regs ls.
Proof.
  unfold regs. rewrite filter_cons.
  destruct (listener_eqb l Bound_current_song_time_changed); by case_decide.
Qed.

Lemma regs_app (ls ks : list listener) : regs (ls ++ ks) = (regs ls + regs ks)%nat.
Proof. unfold regs. by rewrite filter_app, length_app. Qed.

Lemma remove_first_none (ls : list listener) :
  regs ls = 0%nat -> remove_first Bound_current_song_time_changed ls = None.
Proof.
  induction ls as [| l ls IH]; [done |].
  rewrite regs_cons. simpl.
  destruct (listener_eqb l Bound_current_song_time_changed); [done |].
  intros H. by rewrite IH.
Qed.

Lemma remove_first_some (ls : list listener) :
  regs ls <> 0%nat ->
  exists ls', remove_first Bound_current_song_time_changed ls = Some ls'
              /\ regs ls = S (regs ls').
Proof.
  induction ls as [| l ls IH]; [done |].
  rewrite regs_cons. simpl.
  destruct (listener_eqb l Bound_current_song_time_changed) eqn:E.
  - intros _. by exists ls.
  - intros H. destruct (IH H) as (ls' & -> & Hn).
    exists (l :: ls'). by rewrite regs_cons, E.
Qed.

Lemma existsb_bound_false (ls : list listener) :
  regs ls = 0%nat -> existsb (listener_eqb Bound_current_song_time_changed) ls = false.
Proof.
  induction ls as [| l ls IH]; [done |].
  rewrite regs_cons. simpl. destruct l; simpl; [done | exact IH].
Qed.

(** Stopping a listener that is not registered changes nothing at all. *)
Lemma stop_beat_listener_idle (h : SongHandler) :
  registrations (song h) = 0%nat -> stop_beat_listener h = (Ok tt, h).
Proof.
  intros H. unfold stop_beat_listener, try_except_pass, bind, host_call,
    remove_current_song_time_listener.
  by rewrite (remove_first_none _ H).
Qed.

(** Stopping a registered listener removes one registration. *)
Lemma stop_beat_listener_registered (h : SongHandler) :
  registrations (song h) <> 0%nat ->
  exists h', stop_beat_listener h = (Ok tt, h')
             /\ registrations (song h) = S (registrations (song h'))
             /\ last_song_time h' = last_song_time h
             /\ sent h' = sent h.
Proof.
  intros H. unfold stop_beat_listener, try_except_pass, bind, host_call,
    remove_current_song_time_listener.
  destruct (remove_first_some _ H) as (ls' & -> & Hn). simpl.
  eexists. split; [reflexivity |]. by repeat split.
Qed.

(** Whatever the state, [stop_beat_listener] returns normally and leaves the
    stored time and the sent messages alone. *)
Lemma stop_beat_listener_total (h : SongHandler) :
  exists h', stop_beat_listener h = (Ok tt, h')
             /\ registrations (song h') = Nat.pred (registrations (song h))
             /\ last_song_time h' = last_song_time h
             /\ sent h' = sent h.
Proof.
  destruct (decide (registrations (song h) = 0%nat)) as [H | H].
  - exists h. rewrite (stop_beat_listener_idle _ H), H. by repeat split.
  - destruct (stop_beat_listener_registered _ H) as (h' & E & Hn & Hl & Hs).
    exists h'. rewrite Hn. by repeat split.
Qed.

Lemma start_beat_listener_run (strict : bool) (h : SongHandler) :
  (registrations (song h) <= 1)%nat ->
  exists h', start_beat_listener strict h = (Ok tt, h')
             /\ registrations (song h') = 1%nat
             /\ last_song_time h' = last_song_time h
             /\ sent h' = sent h.
Proof.
  intros H. destruct (stop_beat_listener_total h) as (h1 & E & Hn & Hl & Hs).
  assert (H0 : regs (current_song_time_listeners (song h1)) = 0%nat).
  { unfold registrations in *. rewrite Hn. lia. }
  unfold start_beat_listener, bind. rewrite E.
  unfold logger_info, modify, host_call, add_current_song_time_listener. simpl.
  rewrite (existsb_bound_false _ H0), andb_false_r. simpl.
  eexists. split; [reflexivity |]. simpl. repeat split; [| done | done].
  unfold registrations. simpl. rewrite regs_app, H0. reflexivity.
Qed.

(** The stored time is never touched by [start_beat_listener], in any state. *)
Lemma start_beat_listener_keeps_time (strict : bool) (h : SongHandler) :
  last_song_time (snd (start_beat_listener strict h)) = last_song_time h.
Proof.
  destruct (stop_beat_listener_total h) as (h1 & E & _ & Hl & _).
  unfold start_beat_listener, bind. rewrite E.
  unfold logger_info, modify, host_call. simpl.
  by destruct (add_current_song_time_listener _ _ _).
Qed.

(** *** Notifications *)

Lemma call_listeners_idle (ls : list listener) (h : SongHandler) :
  regs ls = 0%nat -> for_each ls call_listener h = (Ok tt, h).
Proof.
  induction ls as [| l ls IH]; [done |].
  rewrite regs_cons. destruct l; simpl; [done |]. exact IH.
Qed.

Lemma call_listeners_once (ls : list listener) (h : SongHandler) :
  regs ls = 1%nat -> for_each ls call_listener h = current_song_time_changed h.
Proof.
  induction ls as [| l ls IH]; [done |].
  rewrite regs_cons. destruct l; simpl.
  - intros H. unfold bind. rewrite current_song_time_changed_run.
    apply call_listeners_idle. lia.
  - exact IH.
Qed.

Lemma notify_registered (t : Q) (h : SongHandler) :
  registrations (song h) = 1%nat ->
  notify_current_song_time t h = (Ok tt, after_notification t h).
Proof.
  intros H. unfold notify_current_song_time, bind, modify, gets. simpl.
  rewrite call_listeners_once by exact H.
  by rewrite current_song_time_changed_run.
Qed.

Lemma notify_idle (t : Q) (h : SongHandler) :
  registrations (song h) = 0%nat ->
  notify_current_song_time t h = (Ok tt, with_song (set_current_song_time t) h).
Proof.
  intros H. unfold notify_current_song_time, bind, modify, gets. simpl.
  by rewrite call_listeners_idle.
Qed.

Lemma after_notification_registrations (t : Q) (h : SongHandler) :
  registrations (song (after_notification t h)) = registrations (song h).
Proof. unfold after_notification. by destruct (_ || _). Qed.

Lemma after_notification_time (t : Q) (h : SongHandler) :
  last_song_time (after_notification t h) = t.
Proof. reflexivity. Qed.

Lemma emitted_by_registered (t : Q) (h : SongHandler) :
  registrations (song h) = 1%nat ->
  emitted_by t h =
    (if float_lt t (last_song_time h) || (trunc t >? trunc (last_song_time h))
     then [beat_message t] else [],
     after_notification t h).
Proof.
  intros H. unfold emitted_by. rewrite (notify_registered _ _ H). simpl.
  unfold after_notification. destruct (_ || _); simpl.
  - by rewrite drop_app_length.
  - by rewrite drop_all.
Qed.

Lemma handle_beat_request_invariant (strict : bool) (r : beat_request) (h : SongHandler) :
  (registrations (song h) <= 1)%nat ->
  exists h', handle_beat_request strict r h = (Ok tt, h')
             /\ (registrations (song h') <= 1)%nat
             /\ last_song_time h' = last_song_time h
             /\ sent h' = sent h.
Proof.
  intros H. destruct r; simpl.
  - destruct (start_beat_listener_run strict h H) as (h' & E & Hn & Hl & Hs).
    exists h'. rewrite Hn. by repeat split.
  - destruct (stop_beat_listener_total h) as (h' & E & Hn & Hl & Hs).
    exists h'. rewrite Hn. repeat split; [done | lia | done | done].
Qed.

Lemma handle_all_invariant (strict : bool) (rs : list beat_request) (h : SongHandler) :
  (registrations (song h) <= 1)%nat ->
  (registrations (song (handle_all strict rs h)) <= 1)%nat.
Proof.
  revert h. induction rs as [| r rs IH]; intros h H; [done |].
  simpl. apply IH.
  destruct (handle_beat_request_invariant strict r h H) as (h' & -> & Hn & _). done.
Qed.

Lemma emitted_at_most_once (t : Q) (h : SongHandler) :
  (registrations (song h) <= 1)%nat -> (length (fst (emitted_by t h)) <= 1)%nat.
Proof.
  intros H. destruct (decide (registrations (song h) = 0%nat)) as [H0 | H0].
  - unfold emitted_by. rewrite (notify_idle _ _ H0). simpl. rewrite drop_all. simpl. lia.
  - rewrite emitted_by_registered by lia. simpl. destruct (_ || _); simpl; lia.
Qed.

(** C4. Starting from a handler whose callback is registered at most once
    (none after construction), after any sequence of start_listen and
    stop_listen beat requests the callback is still registered at most once;
    no request raises; start_listen leaves exactly one registration (replace,
    not stack) and stop_listen none; stop_listen on a listener that is not
    registered returns normally and changes nothing; and a notification
    makes the handler send at most one message. This holds whether or not
    the host refuses duplicate registrations. *)
Theorem beat_listener_registered_at_most_once
    (strict : bool) (h : SongHandler) (rs : list beat_request) :
  (registrations (song h) <= 1)%nat ->
  let h' := handle_all strict rs h in
  (registrations (song h') <= 1)%nat
  /\ (forall r, fst (handle_beat_request strict r h') = Ok tt)
  /\ registrations (song (snd (start_beat_listener strict h'))) = 1%nat
  /\ registrations (song (snd (stop_beat_listener h'))) = 0%nat
  /\ (registrations (song h') = 0%nat -> stop_beat_listener h' = (Ok tt, h'))
  /\ (forall t, (length (fst (emitted_by t h')) <= 1)%nat).
Proof.
  intros H h'. pose proof (handle_all_invariant strict rs h H) as Hinv.
  fold h' in Hinv. split; [exact Hinv |]. split; [| split; [| split; [| split]]].
  - intros r. destruct (handle_beat_request_invariant strict r h' Hinv) as (h2 & -> & _).
    reflexivity.
  - destruct (start_beat_listener_run strict h' Hinv) as (h2 & -> & Hn & _). exact Hn.
  - destruct (stop_beat_listener_total h') as (h2 & -> & Hn & _). simpl. lia.
  - apply stop_beat_listener_idle.
  - intros t. by apply emitted_at_most_once.
Qed.

(** C3, as the code has it. No beat request touches the stored last time:
    start_listen and stop_listen leave [last_song_time] as it was, in every
    state; the initial value -1.0 is stored by [init_api] alone. *)
Theorem beat_requests_keep_last_song_time
    (strict : bool) (r : beat_request) (h : SongHandler) :
  last_song_time (snd (handle_beat_request strict r h)) = last_song_time h
  /\ last_song_time (snd (init_api h)) = (-1 # 1)%Q.
Proof.
  split; [| reflexivity]. destruct r; simpl.
  - apply start_beat_listener_keeps_time.
  - by destruct (stop_beat_listener_total h) as (h' & -> & _ & Hl & _).
Qed.

Lemma deliver_registered (ts : list Q) (h : SongHandler) :
  registrations (song h) = 1%nat -> deliver ts h = edges ts (last_song_time h).
Proof.
  revert h. induction ts as [| t ts IH]; intros h H; [done |].
  cbn [deliver edges]. rewrite (emitted_by_registered t h H). cbn [fst snd].
  rewrite IH by (by rewrite after_notification_registrations). done.
Qed.

(** The times of the scenario are the floats of the decimal literals. *)
Lemma beat_times_are_binary64 :
  nearest_binary64 Examples.float_0_4 (4 # 10)
  /\ nearest_binary64 Examples.float_0_9 (9 # 10)
  /\ nearest_binary64 Examples.float_1_1 (11 # 10)
  /\ nearest_binary64 Examples.float_0_2 (2 # 10).
Proof.
  assert (Hnear : forall (x dec : Q) (m e : Z),
             0 <= e ->
             (2 ^ 52 <=? m) && (m <? 2 ^ 53) = true ->
             Qnum x * 2 ^ e = m * Z.pos (Qden x) ->
             Qle_bool (Qabs (x - dec) * inject_Z (2 ^ (e + 1))) 1 = true ->
             nearest_binary64 x dec).
  { intros x dec m e He Hm Hx Hle. exists m, e.
    apply andb_true_iff in Hm as [H1 H2].
    apply Z.leb_le in H1. apply Z.ltb_lt in H2.
    split; [exact He |]. split; [by split |]. split; [exact Hx |].
    by apply Qle_bool_iff. }
  split; [| split; [| split]].
  - apply (Hnear _ _ 7205759403792794 54); [lia | | |]; by vm_compute.
  - apply (Hnear _ _ 8106479329266893 53); [lia | | |]; by vm_compute.
  - apply (Hnear _ _ 4953959590107546 52); [lia | | |]; by vm_compute.
  - apply (Hnear _ _ 7205759403792794 55); [lia | | |]; by vm_compute.
Qed.

(** C1, as the code has it. With the callback registered once, the
    notifications 0.4, 0.9, 1.1, 1.1, 0.2 (the floats of these literals) make
    the handler send beat 1 at the third notification (0.9 to 1.1) and beat 0
    at the fifth (1.1 to 0.2), and nothing at the second and the fourth. The
    first notification sends beat 0 exactly when the stored last time is above
    the float 0.4 or has a negative integer part, and nothing otherwise; with
    the initial value -1.0 it does. *)
Theorem beat_scenario_edges (h : SongHandler) :
  registrations (song h) = 1%nat ->
  exists first,
    deliver Examples.beat_times h = [first; []; [beat_at 1]; []; [beat_at 0]]
    /\ (first = [beat_at 0] \/ first = [])
    /\ (first = [beat_at 0]
        <-> (Examples.float_0_4 < last_song_time h)%Q \/ trunc (last_song_time h) < 0)
    /\ (last_song_time h = (-1 # 1)%Q -> first = [beat_at 0]).
Proof.
  intros H. rewrite !(deliver_registered _ h H).
  assert (Ht : trunc Examples.float_0_4 = 0) by (by vm_compute).
  exists (if float_lt Examples.float_0_4 (last_song_time h)
             || (trunc Examples.float_0_4 >? trunc (last_song_time h))
          then [beat_message Examples.float_0_4] else []).
  split; [reflexivity |].
  assert (Hiff := beat_edge_iff Examples.float_0_4 (last_song_time h)).
  unfold beat_message. rewrite Ht in *.
  destruct (float_lt Examples.float_0_4 (last_song_time h)
            || (0 >? trunc (last_song_time h))) eqn:E.
  - split; [by left |]. split.
    + split; [intros _ | done]. apply proj1 in Hiff.
      destruct (Hiff eq_refl) as [Hne | Hlt]; [| by left].
      rewrite orb_true_iff, float_lt_iff, Z.gtb_ltb, Z.ltb_lt in E.
      destruct E; [by left | by right].
    + done.
  - split; [by right |]. rewrite orb_false_iff in E. destruct E as [E1 E2]. split.
    + split; [discriminate |]. intros [Hlt | Hneg].
      * apply float_lt_iff in Hlt. congruence.
      * rewrite Z.gtb_ltb in E2. apply Z.ltb_ge in E2. lia.
    + intros Hl. rewrite Hl in E2. discriminate.
Qed.

(** ** The track_data query *)

Lemma add_logs_nil (h : SongHandler) : add_logs [] h = h.
Proof. destruct h. unfold add_logs. simpl. by rewrite app_nil_r. Qed.

Lemma add_logs_app (l1 l2 : list log_entry) (h : SongHandler) :
  add_logs l2 (add_logs l1 h) = add_logs (l1 ++ l2) h.
Proof. unfold add_logs. simpl. by rewrite app_assoc. Qed.

Lemma extend_nil (r : result (list value)) : extend [] r = r.
Proof. by destruct r. Qed.

Lemma extend_extend (rv vs : list value) (r : result (list value)) :
  extend (rv ++ vs) r = extend rv (extend vs r).
Proof. destruct r; simpl; [by rewrite app_assoc | done]. Qed.

Lemma collect_app {A : Type} (f : A -> result (list value)) (xs ys : list A) :
  collect f (xs ++ ys) =
    match collect f xs with
    | Ok vs => extend vs (collect f ys)
    | Raise e => Raise e
    end.
Proof.
  induction xs as [| x xs IH]; simpl.
  - by rewrite extend_nil.
  - destruct (f x) as [vs | e]; [| done]. rewrite IH.
    destruct (collect f xs) as [ws | e]; simpl; [| done].
    by rewrite extend_extend.
Qed.

Lemma collect_ext {A : Type} (f g : A -> result (list value)) (xs : list A) :
  (forall x, f x = g x) -> collect f xs = collect g xs.
Proof.
  intros H. induction xs as [| x xs IH]; simpl; [done |]. by rewrite H, IH.
Qed.

(** What an appending piece returns from an empty [rv] is its value list. *)
Lemma appends_values_fst (s : Song) (m : list value -> M (list value))
    (r : result (list value)) (h : SongHandler) :
  appends_values s m r -> song h = s -> fst (m [] h) = r.
Proof.
  intros [l H] Hs. rewrite (H [] h Hs). simpl. apply extend_nil.
Qed.

(** A loop whose body appends, appends the concatenation. *)
Lemma for_in_appends {A : Type} (s : Song) (body : A -> list value -> M (list value))
    (f : A -> result (list value)) (xs : list A) :
  (forall x, appends_values s (body x) (f x)) ->
  appends_values s (for_in xs body) (collect f xs).
Proof.
  intros H. induction xs as [| x xs IH].
  - exists []. intros rv h _. simpl. unfold ret.
    by rewrite app_nil_r, add_logs_nil.
  - destruct (H x) as [l1 H1]. destruct IH as [l2 H2]. simpl.
    destruct (f x) as [vs | e] eqn:E.
    + exists (l1 ++ l2). intros rv h Hs. unfold bind.
      rewrite (H1 rv h Hs). simpl.
      rewrite (H2 (rv ++ vs) (add_logs l1 h)) by exact Hs.
      by rewrite extend_extend, add_logs_app.
    + exists l1. intros rv h Hs. unfold bind. by rewrite (H1 rv h Hs).
Qed.

Lemma for_in_pure {A : Type} (body : A -> list value -> M (list value))
    (f : A -> result (list value)) (xs : list A) :
  (forall x rv h, body x rv h = (extend rv (f x), h)) ->
  forall rv h, for_in xs body rv h = (extend rv (collect f xs), h).
Proof.
  intros H. induction xs as [| x xs IH]; intros rv h; simpl.
  - unfold ret. by rewrite app_nil_r.
  - unfold bind. rewrite H. destruct (f x) as [vs | e]; simpl; [| done].
    by rewrite IH, extend_extend.
Qed.

Lemma append_one_run (r : result value) (rv : list value) (h : SongHandler) :
  (let* v := lift r in ret (rv ++ [v])) h = (extend rv (one r), h).
Proof. unfold bind, lift, ret. by destruct r. Qed.

(** The loop body of the query computes [token_values] and [token_logs]. *)
Lemma track_data_prop_run (track : Track) (prop : value) (rv : list value)
    (h : SongHandler) :
  track_data_prop track prop rv h =
    (extend rv (token_values (song h) track prop), add_logs (token_logs prop) h).
Proof.
  unfold track_data_prop, token_values, token_logs, known_entity.
  unfold bind at 1. unfold lift at 1.
  destruct (split prop) as [parts | e]; [| by rewrite add_logs_nil].
  destruct parts as [| obj [| property_name [| x parts]]];
    try (unfold raise; by rewrite add_logs_nil).
  destruct (String.eqb obj "track") eqn:Etrack.
  { simpl. rewrite add_logs_nil. unfold track_token_value, bind at 1.
    destruct (String.eqb property_name "num_devices"); [done |].
    unfold bind, lift, gets, ret.
    destruct (getattr (track_attrs track) property_name) as [[] | e]; try done.
    simpl. by destruct (index (tracks (song h)) r). }
  destruct (String.eqb obj "clip") eqn:Eclip.
  { simpl. rewrite add_logs_nil. apply for_in_pure. intros slot rv' h'.
    unfold clip_token_value. destruct (clip slot); [apply append_one_run | done]. }
  destruct (String.eqb obj "clip_slot") eqn:Eslot.
  { simpl. rewrite add_logs_nil. apply for_in_pure. intros slot rv' h'.
    apply append_one_run. }
  destruct (String.eqb obj "device") eqn:Edevice.
  { simpl. rewrite add_logs_nil. apply for_in_pure. intros device rv' h'.
    apply append_one_run. }
  simpl. unfold bind, logger_error, modify, ret. simpl. by rewrite app_nil_r.
Qed.

Lemma prop_values_eq (h : SongHandler) (track : Track) (prop : value) :
  prop_values h track prop = token_values (song h) track prop.
Proof. unfold prop_values. rewrite track_data_prop_run. apply extend_nil. Qed.

Lemma track_data_prop_appends (h0 : SongHandler) (track : Track) (prop : value) :
  appends_values (song h0) (track_data_prop track prop) (prop_values h0 track prop).
Proof.
  exists (token_logs prop). intros rv h Hs.
  by rewrite track_data_prop_run, prop_values_eq, Hs.
Qed.

Lemma track_data_track_appends (h0 : SongHandler) (properties : list value)
    (track_index : Z) :
  appends_values (song h0) (track_data_track properties track_index)
    (track_values h0 properties track_index).
Proof.
  unfold track_values, track_data_track.
  destruct (getitem (tracks (song h0)) track_index) as [track | e] eqn:E.
  - destruct (for_in_appends (song h0) (track_data_prop track) (prop_values h0 track)
                properties (track_data_prop_appends h0 track)) as [l H].
    exists l. intros rv h Hs. unfold bind, gets, lift. rewrite Hs, E. by apply H.
  - exists []. intros rv h Hs. unfold bind, gets, lift.
    by rewrite Hs, E, add_logs_nil.
Qed.

(** The whole query: the two bounds are converted, and the response is the
    concatenation over the track range of the concatenation over the tokens. *)
Lemma song_get_track_data_collect (str_to_int : string -> option Z)
    (p_min p_max : value) (properties : list value) (h : SongHandler) :
  fst (song_get_track_data str_to_int (p_min :: p_max :: properties) h) =
    match py_int str_to_int p_min with
    | Ok lo =>
        match py_int str_to_int p_max with
        | Ok hi => track_major_token_minor h lo hi properties
        | Raise e => Raise e
        end
    | Raise e => Raise e
    end.
Proof.
  unfold song_get_track_data, track_major_token_minor.
  unfold bind at 1. unfold lift at 1.
  destruct (py_int str_to_int p_min) as [lo | e]; [| done].
  unfold bind at 1. unfold lift at 1.
  destruct (py_int str_to_int p_max) as [hi | e]; [| done].
  unfold bind at 1. unfold logger_info, modify.
  set (h1 := with_logged _ h).
  assert (Hs : song h1 = song h) by reflexivity.
  unfold bind at 1.
  assert (E : (if hi =? -1 then gets (fun h => Z.of_nat (length (tracks (song h))))
               else ret hi) h1
              = (Ok (if hi =? -1 then Z.of_nat (length (tracks (song h))) else hi), h1)).
  { by destruct (hi =? -1). }
  rewrite E.
  apply (appends_values_fst (song h)); [| exact Hs].
  apply for_in_appends. intros i. apply track_data_track_appends.
Qed.

(** *** Python sequences *)

Lemma lookup_map_seq {A : Type} (f : nat -> A) (n start k : nat) :
  map f (seq start n) !! k = if decide (k < n)%nat then Some (f (start + k)%nat) else None.
Proof.
  revert start k. induction n as [| n IH]; intros start k.
  - destruct (decide (k < 0)%nat); [lia | done].
  - destruct k as [| k].
    + destruct (decide (0 < S n)%nat); [| lia]. simpl. by rewrite Nat.add_0_r.
    + change (map f (seq start (S n)) !! S k) with (map f (seq (S start) n) !! k).
      rewrite IH.
      destruct (decide (k < n)%nat), (decide (S k < S n)%nat); try lia; try done.
      by rewrite Nat.add_succ_r.
Qed.

(** [range(lo, hi)] lists [lo, lo + 1, ...] below [hi], in ascending order. *)
Lemma range_lookup (lo hi : Z) (k : nat) (i : Z) :
  range lo hi !! k = Some i <-> i = lo + Z.of_nat k /\ lo + Z.of_nat k < hi.
Proof.
  unfold range. rewrite lookup_map_seq. case_decide as Hk; simpl.
  - split; [intros [= <-] | intros [-> _]; done]. split; lia.
  - split; [done | intros [_ H]; lia].
Qed.

Lemma range_empty (lo hi : Z) : hi <= lo -> range lo hi = [].
Proof.
  intros H. unfold range. replace (Z.to_nat (hi - lo)) with 0%nat by lia. done.
Qed.

Lemma range_cons (lo hi : Z) : lo < hi -> range lo hi = lo :: range (lo + 1) hi.
Proof.
  intros H. unfold range.
  replace (Z.to_nat (hi - lo)) with (S (Z.to_nat (hi - (lo + 1)))) by lia.
  simpl. f_equal; [lia |].
  rewrite <- seq_shift, map_map. apply map_ext. intros k. lia.
Qed.

Lemma getitem_outside {A : Type} (l : list A) (i : Z) :
  i < - Z.of_nat (length l) \/ Z.of_nat (length l) <= i ->
  getitem l i = Raise IndexError.
Proof.
  intros H. unfold getitem.
  destruct (Z.ltb_spec i 0); simpl.
  - destruct (Z.ltb_spec (i + Z.of_nat (length l)) 0); [done | lia].
  - destruct (Z.ltb_spec i 0); [lia |].
    destruct (Z.leb_spec (Z.of_nat (length l)) i); [done | lia].
Qed.

Lemma getitem_inside {A : Type} (l : list A) (i : Z) :
  - Z.of_nat (length l) <= i < Z.of_nat (length l) ->
  exists x, getitem l i = Ok x
            /\ l !! Z.to_nat (i mod Z.of_nat (length l)) = Some x.
Proof.
  intros H. unfold getitem.
  set (n := Z.of_nat (length l)) in *.
  set (j := if i <? 0 then i + n else i).
  assert (Hj : 0 <= j < n) by (subst j; destruct (Z.ltb_spec i 0); lia).
  assert (Hm : i mod n = j).
  { subst j. destruct (Z.ltb_spec i 0).
    - symmetry. apply (Z.mod_unique i n (-1) (i + n)); lia.
    - apply Z.mod_small. lia. }
  destruct (Z.ltb_spec j 0); [lia |].
  destruct (Z.leb_spec n j); [lia |]. simpl. rewrite Hm.
  destruct (l !! Z.to_nat j) as [x |] eqn:E; [by exists x |].
  apply lookup_ge_None in E. lia.
Qed.

Lemma getitem_head {A : Type} (x : A) (l : list A) : getitem (x :: l) 0 = Ok x.
Proof.
  unfold getitem. simpl length.
  destruct (Z.leb_spec (Z.of_nat (S (length l))) 0); [lia | done].
Qed.



(** *** Tokens *)

Lemma clip_or_null_value (p : string) (slot : ClipSlot) (v : value) :
  clip_or_null p slot v -> clip_token_value p slot = Ok v.
Proof.
  unfold clip_or_null, clip_token_value, getattr.
  destruct (clip slot); [by intros -> | by intros ->].
Qed.

Lemma collect_one_Forall2 {A : Type} (f : A -> result value) (xs : list A)
    (vs : list value) :
  Forall2 (fun x v => f x = Ok v) xs vs -> collect (fun x => one (f x)) xs = Ok vs.
Proof.
  induction 1 as [| x v xs vs Hx _ IH]; simpl; [done |]. by rewrite Hx, IH.
Qed.

(** C5. A [clip.<prop>] token appends one value per clip slot of the track,
    in slot order: the property of the clip where the slot holds one, [None]
    where it is empty. With two tracks whose slots hold ("A", empty) and
    (empty, "B"), the query [0 2 clip.name] returns ("A", None, None, "B"). *)
Theorem clip_token_one_value_per_slot (str_to_int : string -> option Z) :
  (forall (track : Track) (s p : string) (vs rv : list value) (h : SongHandler),
      split_dot s = ["clip"; p]%string ->
      Forall2 (clip_or_null p) (clip_slots track) vs ->
      track_data_prop track (VStr s) rv h = (Ok (rv ++ vs), h)
      /\ length vs = length (clip_slots track))
  /\ fst (song_get_track_data str_to_int [VInt 0; VInt 2; VStr "clip.name"]
            (Examples.fresh Examples.two_tracks))
     = Ok [VStr "A"; VNone; VNone; VStr "B"].
Proof.
  split; [| by vm_compute].
  intros track s p vs rv h Hs Hvs. split.
  - rewrite track_data_prop_run. unfold token_values, token_logs. simpl.
    rewrite Hs. simpl. rewrite add_logs_nil.
    rewrite (collect_one_Forall2 (clip_token_value p) _ vs); [done |].
    eapply Forall2_impl; [exact Hvs |]. apply clip_or_null_value.
  - symmetry. by eapply Forall2_length.
Qed.

(** C6. The query converts its two bounds, replaces an upper bound of -1 by
    the number of tracks it finds in the song, and returns the values of every
    token, in request order, for every track index of [range(min, max)], in
    ascending order: the response is track-major and token-minor. The range
    holds exactly the indices from [min] up to but excluding the upper bound. *)
Theorem track_data_track_major_token_minor (str_to_int : string -> option Z)
    (p_min p_max : value) (properties : list value) (h : SongHandler) (lo hi : Z) :
  py_int str_to_int p_min = Ok lo ->
  py_int str_to_int p_max = Ok hi ->
  let upper := if hi =? -1 then Z.of_nat (length (tracks (song h))) else hi in
  fst (song_get_track_data str_to_int (p_min :: p_max :: properties) h)
    = track_major_token_minor h lo hi properties
  /\ track_major_token_minor h lo hi properties
     = collect
         (fun i => match getitem (tracks (song h)) i with
                   | Ok track =>
                       collect (fun prop => fst (track_data_prop track prop [] h))
                         properties
                   | Raise e => Raise e
                   end)
         (range lo upper)
  /\ (forall (k : nat) (i : Z),
         range lo upper !! k = Some i <-> i = lo + Z.of_nat k /\ lo + Z.of_nat k < upper).
Proof.
  intros Hlo Hhi upper. split; [| split].
  - by rewrite song_get_track_data_collect, Hlo, Hhi.
  - reflexivity.
  - intros k i. apply range_lookup.
Qed.


Lemma token_values_unknown (sg : Song) (track : Track) (s obj p : string) :
  split_dot s = [obj; p] -> known_entity obj = false ->
  token_values sg track (VStr s) = Ok [].
Proof.
  intros Hs Hk. unfold token_values. simpl. rewrite Hs.
  unfold known_entity in Hk. rewrite !orb_false_iff in Hk.
  destruct Hk as [[[-> ->] ->] ->]. done.
Qed.

(** A loop whose body appends and logs, appends the concatenation and logs
    the concatenation when it runs through. *)
Lemma for_in_logs {A : Type} (s : Song) (body : A -> list value -> M (list value))
    (f : A -> result (list value)) (g : A -> list log_entry) (xs : list A) :
  (forall x rv h ws, song h = s -> f x = Ok ws ->
     body x rv h = (Ok (rv ++ ws), add_logs (g x) h)) ->
  forall vs, collect f xs = Ok vs ->
  forall rv h, song h = s ->
    for_in xs body rv h = (Ok (rv ++ vs), add_logs (flat_map g xs) h).
Proof.
  intros Hbody. induction xs as [| x xs IH]; intros vs Hvs rv h Hs.
  - simpl in Hvs. injection Hvs as <-. simpl. unfold ret.
    by rewrite app_nil_r, add_logs_nil.
  - simpl in Hvs. destruct (f x) as [ws |] eqn:Ex; [| done].
    destruct (collect f xs) as [vs' |] eqn:Exs; [| done].
    simpl in Hvs. injection Hvs as <-. simpl. unfold bind.
    rewrite (Hbody x rv h ws Hs Ex).
    rewrite (IH vs' eq_refl (rv ++ ws) (add_logs (g x) h)) by exact Hs.
    by rewrite app_assoc, add_logs_app.
Qed.

Lemma track_data_track_logs (h0 : SongHandler) (properties : list value)
    (track_index : Z) (vs rv : list value) (h : SongHandler) :
  song h = song h0 ->
  track_values h0 properties track_index = Ok vs ->
  track_data_track properties track_index rv h
  = (Ok (rv ++ vs), add_logs (flat_map token_logs properties) h).
Proof.
  intros Hs Hvs. unfold track_values in Hvs. unfold track_data_track.
  unfold bind at 1. unfold gets. unfold bind at 1. unfold lift. rewrite Hs.
  destruct (getitem (tracks (song h0)) track_index) as [track |]; [| done].
  apply (for_in_logs (song h0) (track_data_prop track) (prop_values h0 track));
    [| exact Hvs | exact Hs].
  intros prop rv' h' ws Hs' Hws.
  rewrite track_data_prop_run, Hs', <- prop_values_eq, Hws. done.
Qed.

(** What a query that returns has logged: its opening line and then, for
    every track of the range, the lines of its tokens. *)
Lemma song_get_track_data_logs (str_to_int : string -> option Z)
    (p_min p_max : value) (properties vs : list value) (h : SongHandler) (lo hi : Z) :
  py_int str_to_int p_min = Ok lo ->
  py_int str_to_int p_max = Ok hi ->
  fst (song_get_track_data str_to_int (p_min :: p_max :: properties) h) = Ok vs ->
  song_get_track_data str_to_int (p_min :: p_max :: properties) h
  = (Ok vs,
     add_logs
       (Info_getting_track_data properties lo hi
        :: flat_map (fun _ : Z => flat_map token_logs properties)
             (range lo (if hi =? -1 then Z.of_nat (length (tracks (song h))) else hi)))
       h).
Proof.
  intros Hlo Hhi Hvs.
  rewrite song_get_track_data_collect, Hlo, Hhi in Hvs.
  unfold track_major_token_minor in Hvs. unfold song_get_track_data.
  unfold bind at 1. unfold lift at 1. rewrite Hlo.
  unfold bind at 1. unfold lift at 1. rewrite Hhi.
  unfold bind at 1. unfold logger_info, modify.
  set (info := Info_getting_track_data properties lo hi).
  change (with_logged info h) with (add_logs [info] h).
  unfold bind at 1.
  assert (E : (if hi =? -1 then gets (fun h => Z.of_nat (length (tracks (song h))))
               else ret hi) (add_logs [info] h)
              = (Ok (if hi =? -1 then Z.of_nat (length (tracks (song h))) else hi),
                 add_logs [info] h)).
  { by destruct (hi =? -1). }
  rewrite E.
  rewrite (for_in_logs (song h) (track_data_track properties) (track_values h properties)
             (fun _ => flat_map token_logs properties) _
             (fun i rv h' ws Hs Hws => track_data_track_logs h properties i ws rv h' Hs Hws)
             vs Hvs [] (add_logs [info] h) eq_refl).
  by rewrite add_logs_app.
Qed.

(** C8. A token whose entity keyword is none of track, clip, clip_slot and
    device is logged as an error and appends nothing, on every track. The
    query with the token returns what the query without it returns, which is
    the track-major, token-minor concatenation of the values of the other
    tokens: every other token keeps its values and its position. When the
    query returns, its log holds the opening line and then, for every track of
    the range, the lines of the tokens before it, the error line of the
    unknown token, and the lines of the tokens after it. *)
Theorem unknown_entity_token_is_skipped (str_to_int : string -> option Z)
    (s obj p : string) :
  split_dot s = [obj; p] ->
  known_entity obj = false ->
  (forall (track : Track) (rv : list value) (h : SongHandler),
      track_data_prop track (VStr s) rv h
        = (Ok rv, with_logged (Error_unknown_object_identifier obj) h))
  /\ (forall (p_min p_max : value) (before after : list value) (h : SongHandler),
        fst (song_get_track_data str_to_int
               (p_min :: p_max :: before ++ VStr s :: after) h)
        = fst (song_get_track_data str_to_int (p_min :: p_max :: before ++ after) h))
  /\ (forall (p_min p_max : value) (before after : list value) (h : SongHandler)
             (lo hi : Z),
        py_int str_to_int p_min = Ok lo ->
        py_int str_to_int p_max = Ok hi ->
        fst (song_get_track_data str_to_int
               (p_min :: p_max :: before ++ VStr s :: after) h)
        = track_major_token_minor h lo hi (before ++ after)
        /\ forall vs,
             fst (song_get_track_data str_to_int
                    (p_min :: p_max :: before ++ VStr s :: after) h) = Ok vs ->
             logged (snd (song_get_track_data str_to_int
                            (p_min :: p_max :: before ++ VStr s :: after) h))
             = logged h
               ++ Info_getting_track_data (before ++ VStr s :: after) lo hi
                  :: flat_map
                       (fun _ : Z =>
                          flat_map token_logs before
                          ++ Error_unknown_object_identifier obj
                             :: flat_map token_logs after)
                       (range lo (if hi =? -1
                                  then Z.of_nat (length (tracks (song h)))
                                  else hi))).
Proof.
  intros Hs Hk.
  assert (Hsame : forall p_min p_max before after h,
             fst (song_get_track_data str_to_int
                    (p_min :: p_max :: before ++ VStr s :: after) h)
             = fst (song_get_track_data str_to_int (p_min :: p_max :: before ++ after) h)).
  { intros p_min p_max before after h. rewrite !song_get_track_data_collect.
    destruct (py_int str_to_int p_min) as [lo | e]; [| done].
    destruct (py_int str_to_int p_max) as [hi | e]; [| done].
    unfold track_major_token_minor. apply collect_ext. intros i.
    unfold track_values. destruct (getitem (tracks (song h)) i) as [track | e]; [| done].
    rewrite !collect_app. simpl.
    rewrite prop_values_eq, (token_values_unknown _ _ _ _ _ Hs Hk).
    by rewrite extend_nil. }
  split; [| split; [exact Hsame |]].
  - intros track rv h. rewrite track_data_prop_run.
    rewrite (token_values_unknown _ _ _ _ _ Hs Hk).
    unfold token_logs. simpl. rewrite Hs, Hk. simpl. by rewrite app_nil_r.
  - intros p_min p_max before after h lo hi Hlo Hhi. split.
    + by rewrite Hsame, song_get_track_data_collect, Hlo, Hhi.
    + intros vs Hvs.
      assert (Hl : token_logs (VStr s) = [Error_unknown_object_identifier obj]).
      { unfold token_logs. simpl. by rewrite Hs, Hk. }
      rewrite (song_get_track_data_logs _ _ _ _ _ _ _ _ Hlo Hhi Hvs).
      cbn [snd]. unfold add_logs. cbn [logged]. f_equal. f_equal.
      apply flat_map_ext. intros _.
      rewrite flat_map_app. cbn [flat_map]. by rewrite Hl.
Qed.

Lemma token_values_malformed (sg : Song) (track : Track) (s : string) :
  well_formed_token s = false -> token_values sg track (VStr s) = Raise ValueError.
Proof.
  unfold well_formed_token, token_values. simpl.
  by destruct (split_dot s) as [| a [| b [| c l]]].
Qed.

Lemma track_values_malformed (h : SongHandler) (before after : list value)
    (s : string) (i : Z) :
  well_formed_token s = false ->
  exists e, track_values h (before ++ VStr s :: after) i = Raise e.
Proof.
  intros Hs. unfold track_values.
  destruct (getitem (tracks (song h)) i) as [track | e]; [| by eexists].
  rewrite collect_app.
  destruct (collect (prop_values h track) before) as [vs | e]; [| by eexists].
  simpl. rewrite prop_values_eq, (token_values_malformed _ _ _ Hs). by eexists.
Qed.

(** C9, as the code has it. A token that does not split into exactly two
    parts is only inspected inside the loop over the tracks. When the track
    range is empty the query returns the empty tuple and does not raise. When
    the range is not empty, the first track exists and the tokens before the
    malformed one evaluate on it, the query raises [ValueError]. In every case
    the query returns no values. *)
Theorem malformed_token_returns_no_values (str_to_int : string -> option Z)
    (s : string) (p_min p_max : value) (before after : list value) (h : SongHandler) :
  well_formed_token s = false ->
  let r := fst (song_get_track_data str_to_int
                  (p_min :: p_max :: before ++ VStr s :: after) h) in
  (r = Ok [] \/ exists e, r = Raise e)
  /\ (forall lo hi : Z,
        py_int str_to_int p_min = Ok lo ->
        py_int str_to_int p_max = Ok hi ->
        let upper := if hi =? -1 then Z.of_nat (length (tracks (song h))) else hi in
        (upper <= lo -> r = Ok [])
        /\ (lo < upper ->
            forall track vs,
              getitem (tracks (song h)) lo = Ok track ->
              collect (prop_values h track) before = Ok vs ->
              r = Raise ValueError)).
Proof.
  intros Hs r. subst r. rewrite song_get_track_data_collect.
  unfold track_major_token_minor. split.
  - destruct (py_int str_to_int p_min) as [lo | e]; [| right; by eexists].
    destruct (py_int str_to_int p_max) as [hi | e]; [| right; by eexists].
    set (upper := if hi =? -1 then _ else hi).
    destruct (Z.le_gt_cases upper lo) as [H | H].
    + left. by rewrite range_empty.
    + right. rewrite (range_cons _ _ H). simpl.
      destruct (track_values_malformed h before after s lo Hs) as [e ->].
      by eexists.
  - intros lo hi Hlo Hhi. rewrite Hlo, Hhi. cbv zeta.
    set (upper := if hi =? -1 then _ else hi). split.
    + intros H. by rewrite range_empty.
    + intros H track vs Ht Hvs. rewrite (range_cons _ _ H). simpl.
      unfold track_values. rewrite Ht, collect_app, Hvs. simpl.
      by rewrite prop_values_eq, (token_values_malformed _ _ _ Hs).
Qed.

(** *** /live/song/cue_point/jump *)

Lemma jump_all_jumped (cs : list CuePoint) (sg : Song) :
  jumped (jump_all cs sg) = jumped sg ++ map cue_ref cs.
Proof.
  revert sg. induction cs as [| c cs IH]; intros sg; simpl.
  - by rewrite app_nil_r.
  - unfold jump_all in IH. rewrite IH. simpl. by rewrite <- app_assoc.
Qed.

Lemma with_song_id (h : SongHandler) : with_song (fun sg => sg) h = h.
Proof. by destruct h. Qed.

Lemma with_song_compose (f g : Song -> Song) (h : SongHandler) :
  with_song g (with_song f h) = with_song (fun sg => g (f sg)) h.
Proof. reflexivity. Qed.

Lemma jump_by_name_run (s : string) (cs : list CuePoint) (h : SongHandler) :
  for_each cs
    (fun cue_point =>
       if String.eqb (name cue_point) s
       then modify (with_song (jump cue_point))
       else ret tt) h
  = (Ok tt, with_song (jump_all (filter (fun c => name c = s) cs)) h).
Proof.
  revert h. induction cs as [| c cs IH]; intros h; simpl.
  - unfold ret. by rewrite with_song_id.
  - unfold bind. rewrite filter_cons.
    destruct (String.eqb_spec (name c) s) as [E | E]; case_decide; try done.
    + unfold modify. by rewrite IH, with_song_compose.
    + unfold ret. by rewrite IH.
Qed.

(** C10. The jump handler looks at its first argument. For a string, [jump()]
    is called on every cue point with that name, in list order and on no
    other. For an integer, it is called on the cue point at that index
    (negative indices count from the end, a boolean counts as 0 or 1), and an
    index outside the list raises [IndexError] with nothing jumped. For any
    other argument nothing happens. *)
Theorem jump_to_cue_point_dispatch (arg : value) (rest : list value) (h : SongHandler) :
  let cps := cue_points (song h) in
  let len := Z.of_nat (length cps) in
  let run := song_jump_to_cue_point (arg :: rest) h in
  (forall s : string, arg = VStr s ->
     run = (Ok tt, with_song (jump_all (filter (fun c => name c = s) cps)) h)
     /\ jumped (song (snd run))
        = jumped (song h) ++ map cue_ref (filter (fun c => name c = s) cps))
  /\ (forall i : Z, arg = VInt i \/ (exists b : bool, arg = VBool b /\ i = if b then 1 else 0) ->
      (- len <= i < len ->
       exists c, cps !! Z.to_nat (i mod len) = Some c
                 /\ run = (Ok tt, with_song (jump c) h)
                 /\ jumped (song (snd run)) = jumped (song h) ++ [cue_ref c])
      /\ (i < - len \/ len <= i -> run = (Raise IndexError, h)))
  /\ (is_str arg = false -> is_int arg = false -> run = (Ok tt, h)).
Proof.
  intros cps len run.
  assert (Erun : run =
    let at_index i :=
      match getitem cps i with
      | Ok c => (Ok tt, with_song (jump c) h)
      | Raise e => (Raise e, h)
      end in
    match arg with
    | VStr s => (Ok tt, with_song (jump_all (filter (fun c => name c = s) cps)) h)
    | VInt i => at_index i
    | VBool b => at_index (if b then 1 else 0)
    | _ => (Ok tt, h)
    end).
  { subst run. unfold song_jump_to_cue_point.
    unfold bind at 1. unfold lift at 1. rewrite getitem_head.
    destruct arg as [| b | i | q | s | r | r]; try reflexivity.
    unfold bind, gets. apply jump_by_name_run. }
  rewrite Erun. clear Erun run. cbv zeta. split; [| split].
  - intros s ->. split; [done |]. simpl. apply jump_all_jumped.
  - intros i Harg.
    assert (E : match arg with
                | VStr s =>
                    (Ok tt, with_song (jump_all (filter (fun c => name c = s) cps)) h)
                | VInt i =>
                    match getitem cps i with
                    | Ok c => (Ok tt, with_song (jump c) h)
                    | Raise e => (Raise e, h)
                    end
                | VBool b =>
                    match getitem cps (if b then 1 else 0) with
                    | Ok c => (Ok tt, with_song (jump c) h)
                    | Raise e => (Raise e, h)
                    end
                | _ => (Ok tt, h)
                end
                = match getitem cps i with
                  | Ok c => (Ok tt, with_song (jump c) h)
                  | Raise e => (Raise e, h)
                  end).
    { by destruct Harg as [-> | (b & -> & ->)]. }
    rewrite E. split.
    + intros Hi. destruct (getitem_inside cps i Hi) as (c & -> & Hc).
      exists c. by repeat split.
    + intros Hi. by rewrite (getitem_outside cps i Hi).
  - by destruct arg.
Qed.

(** * The handlers on concrete sessions *)

(** Right after [init_api] and start_listen the stored time is -1.0, so the
    first notification of the scenario (0.4) already sends beat 0: three
    events are sent, not two. *)
Lemma beat_scenario_three_events :
  registrations (song Examples.listening) = 1%nat
  /\ deliver Examples.beat_times Examples.listening
     = [[beat_at 0]; []; [beat_at 1]; []; [beat_at 0]]
  /\ deliver Examples.beat_times Examples.listening
     <> [[]; []; [beat_at 1]; []; [beat_at 0]]
  /\ length (concat (deliver Examples.beat_times Examples.listening)) = 3%nat.
Proof. repeat split; try by vm_compute. Qed.

Lemma beat_scenario_edges_witness :
  registrations (song Examples.listening) = 1%nat
  /\ exists first,
       deliver Examples.beat_times Examples.listening
         = [first; []; [beat_at 1]; []; [beat_at 0]]
       /\ (first = [beat_at 0] \/ first = [])
       /\ (first = [beat_at 0]
           <-> (Examples.float_0_4 < last_song_time Examples.listening)%Q
               \/ trunc (last_song_time Examples.listening) < 0)
       /\ (last_song_time Examples.listening = (-1 # 1)%Q -> first = [beat_at 0]).
Proof.
  split; [reflexivity |]. apply (beat_scenario_edges Examples.listening). reflexivity.
Defined.

(** A restart after the song has reached 1.1 leaves the stored time at 1.1; it
    is not put back to the initial -1.0. *)
Lemma restart_keeps_stored_time :
  last_song_time Examples.played = (11 # 10)%Q
  /\ last_song_time (snd (handle_beat_request false Start_listen_beat Examples.played))
     = (11 # 10)%Q
  /\ ~ (last_song_time (snd (handle_beat_request false Start_listen_beat Examples.played))
        == last_song_time (snd (init_api Examples.played)))%Q.
Proof.
  split; [reflexivity |]. split; [reflexivity |].
  vm_compute. intros H. discriminate H.
Qed.

Lemma beat_listener_registered_at_most_once_witness :
  (registrations (song (Examples.fresh Examples.two_tracks)) <= 1)%nat
  /\ (registrations
        (song (handle_all true Examples.requests (Examples.fresh Examples.two_tracks)))
      <= 1)%nat.
Proof.
  split; [vm_compute; lia |].
  apply (beat_listener_registered_at_most_once true
           (Examples.fresh Examples.two_tracks) Examples.requests).
  vm_compute. lia.
Defined.

Lemma clip_token_one_value_per_slot_witness :
  split_dot "clip.name" = ["clip"; "name"]%string
  /\ Forall2 (clip_or_null "name") (clip_slots Examples.track0) [VStr "A"; VNone]
  /\ track_data_prop Examples.track0 (VStr "clip.name") []
       (Examples.fresh Examples.two_tracks)
     = (Ok ([] ++ [VStr "A"; VNone]), Examples.fresh Examples.two_tracks).
Proof.
  assert (H : Forall2 (clip_or_null "name") (clip_slots Examples.track0)
                [VStr "A"; VNone]).
  { repeat constructor. }
  split; [reflexivity |]. split; [exact H |].
  apply (proj1 (clip_token_one_value_per_slot Examples.no_str_to_int)
           Examples.track0 "clip.name"%string "name"%string [VStr "A"; VNone] []
           (Examples.fresh Examples.two_tracks) eq_refl H).
Defined.

Lemma track_data_track_major_token_minor_witness :
  py_int Examples.no_str_to_int (VInt 0) = Ok 0
  /\ py_int Examples.no_str_to_int (VFloat (-1 # 1)) = Ok (-1)
  /\ fst (song_get_track_data Examples.no_str_to_int
            [VInt 0; VFloat (-1 # 1); VStr "track.name"; VStr "clip.name"]
            (Examples.fresh Examples.two_tracks))
     = track_major_token_minor (Examples.fresh Examples.two_tracks) 0 (-1)
         [VStr "track.name"; VStr "clip.name"].
Proof.
  split; [reflexivity |]. split; [reflexivity |].
  apply (track_data_track_major_token_minor Examples.no_str_to_int
           (VInt 0) (VFloat (-1 # 1)) [VStr "track.name"; VStr "clip.name"]
           (Examples.fresh Examples.two_tracks) 0 (-1) eq_refl eq_refl).
Defined.


Lemma unknown_entity_token_is_skipped_witness :
  split_dot "widget.x" = ["widget"; "x"]%string
  /\ known_entity "widget" = false
  /\ fst (song_get_track_data Examples.no_str_to_int
            (VInt 0 :: VInt (-1) :: [VStr "track.name"] ++ VStr "widget.x" :: [VStr "clip.name"])
            (Examples.fresh Examples.two_tracks))
     = Ok [VStr "Drums"; VStr "A"; VNone; VStr "Kick"; VNone; VStr "B"]
  /\ logged (snd (song_get_track_data Examples.no_str_to_int
                    (VInt 0 :: VInt (-1) :: [VStr "track.name"] ++ VStr "widget.x"
                       :: [VStr "clip.name"])
                    (Examples.fresh Examples.two_tracks)))
     = [Info_getting_track_data
          [VStr "track.name"; VStr "widget.x"; VStr "clip.name"] 0 (-1);
        Error_unknown_object_identifier "widget";
        Error_unknown_object_identifier "widget"].
Proof.
  split; [reflexivity |]. split; [reflexivity |].
  destruct (proj2 (proj2 (unknown_entity_token_is_skipped Examples.no_str_to_int
              "widget.x"%string "widget"%string "x"%string eq_refl eq_refl))
              (VInt 0) (VInt (-1)) [VStr "track.name"] [VStr "clip.name"]
              (Examples.fresh Examples.two_tracks) 0 (-1) eq_refl eq_refl)
    as [Hvalues Hlog].
  assert (Hok : fst (song_get_track_data Examples.no_str_to_int
                       (VInt 0 :: VInt (-1) :: [VStr "track.name"] ++ VStr "widget.x"
                          :: [VStr "clip.name"])
                       (Examples.fresh Examples.two_tracks))
                = Ok [VStr "Drums"; VStr "A"; VNone; VStr "Kick"; VNone; VStr "B"]).
  { rewrite Hvalues. reflexivity. }
  split; [exact Hok |]. rewrite (Hlog _ Hok). reflexivity.
Defined.

(** With an empty track range the malformed token "name" is never looked at:
    the query returns the empty tuple and raises nothing. *)
Lemma malformed_token_empty_range :
  well_formed_token "name" = false
  /\ fst (song_get_track_data Examples.no_str_to_int [VInt 0; VInt 0; VStr "name"]
            (Examples.fresh Examples.two_tracks)) = Ok []
  /\ forall e, fst (song_get_track_data Examples.no_str_to_int
                      [VInt 0; VInt 0; VStr "name"]
                      (Examples.fresh Examples.two_tracks)) <> Raise e.
Proof. split; [reflexivity |]. split; [reflexivity |]. intros e. discriminate. Qed.

Lemma malformed_token_returns_no_values_witness :
  well_formed_token "a.b.c" = false
  /\ fst (song_get_track_data Examples.no_str_to_int
            (VInt 0 :: VInt 2 :: [VStr "track.name"] ++ VStr "a.b.c" :: [])
            (Examples.fresh Examples.two_tracks)) = Raise ValueError.
Proof.
  split; [reflexivity |].
  apply (proj2 (proj2 (malformed_token_returns_no_values Examples.no_str_to_int
           "a.b.c"%string (VInt 0) (VInt 2) [VStr "track.name"] []
           (Examples.fresh Examples.two_tracks) eq_refl) 0 2 eq_refl eq_refl)
           ltac:(reflexivity) Examples.track0 [VStr "Drums"] eq_refl eq_refl).
Defined.

Lemma jump_to_cue_point_dispatch_witness :
  VStr "intro" = VStr "intro"
  /\ jumped (song (snd (song_jump_to_cue_point [VStr "intro"]
                          (Examples.fresh Examples.two_tracks))))
     = jumped (song (Examples.fresh Examples.two_tracks))
       ++ map cue_ref (filter (fun c => name c = "intro"%string)
                         (cue_points (song (Examples.fresh Examples.two_tracks)))).
Proof.
  split; [reflexivity |].
  apply (proj1 (jump_to_cue_point_dispatch (VStr "intro") []
                  (Examples.fresh Examples.two_tracks)) "intro"%string eq_refl).
Defined.

(** The scenarios evaluated. *)
Example jump_by_name_twice :
  jumped (song (snd (song_jump_to_cue_point [VStr "intro"]
                       (Examples.fresh Examples.two_tracks)))) = [20%nat; 22%nat].
Proof. reflexivity. Qed.

Example jump_out_of_range :
  song_jump_to_cue_point [VInt 3] (Examples.fresh Examples.two_tracks)
  = (Raise IndexError, Examples.fresh Examples.two_tracks).
Proof. reflexivity. Qed.

Example track_data_mixed_query :
  fst (song_get_track_data Examples.no_str_to_int
         [VInt 1; VInt (-1); VStr "track.name"; VStr "widget.x";
          VStr "track.group_track"; VStr "device.name"; VStr "track.num_devices";
          VStr "clip_slot.has_clip"]
         (Examples.fresh Examples.two_tracks))
  = Ok [VStr "Kick"; VInt 0; VStr "Compressor"; VInt 1; VBool false; VBool true].
Proof. by vm_compute. Qed.

(** * Further properties *)

(** ** The beat listener, beyond single registrations *)

Lemma float_lt_irrefl (t : Q) : float_lt t t = false.
Proof.
  unfold float_lt. apply negb_false_iff. apply Qle_bool_iff. apply Qle_refl.
Qed.

Lemma no_edge_same_time (t : Q) : float_lt t t || (trunc t >? trunc t) = false.
Proof. by rewrite float_lt_irrefl, Z.gtb_ltb, Z.ltb_irrefl. Qed.

(** Once a callback has stored the current time, further calls change
    nothing that can be observed. *)
Lemma call_listeners_settled (ls : list listener) (h : SongHandler) :
  last_song_time h = current_song_time (song h) ->
  exists h', for_each ls call_listener h = (Ok tt, h')
             /\ sent h' = sent h
             /\ last_song_time h' = last_song_time h
             /\ song h' = song h.
Proof.
  revert h. induction ls as [| l ls IH]; intros h Hlast; [by exists h |].
  destruct l; simpl.
  - unfold bind. rewrite current_song_time_changed_run, <- Hlast, no_edge_same_time.
    destruct (IH (with_last_song_time (last_song_time h) h) Hlast)
      as (h' & -> & Hs & Hl & Hg).
    by exists h'.
  - apply IH, Hlast.
Qed.

Lemma call_listeners_any (ls : list listener) (h : SongHandler) :
  exists h', for_each ls call_listener h = (Ok tt, h')
             /\ song h' = song h
             /\ (sent h' = sent h
                 \/ sent h' = sent h ++ [beat_message (current_song_time (song h))]).
Proof.
  revert h. induction ls as [| l ls IH]; intros h.
  - exists h. repeat split. by left.
  - destruct l; simpl; [| apply IH].
    unfold bind. rewrite current_song_time_changed_run.
    set (h1 := with_last_song_time _ _).
    assert (Hnow : current_song_time (song h1) = current_song_time (song h)).
    { subst h1. by destruct (_ || _). }
    destruct (call_listeners_settled ls h1) as (h' & -> & Hs & _ & Hg).
    { by rewrite Hnow. }
    exists h'. split; [done |]. split.
    + rewrite Hg. subst h1. by destruct (_ || _).
    + rewrite Hs. subst h1. destruct (_ || _); [by right | by left].
Qed.

(** X1. However often the callback is registered on the song, one
    notification makes the handler send at most one beat message, and the
    notification returns normally. *)
Theorem notification_sends_at_most_one_beat (t : Q) (h : SongHandler) :
  fst (notify_current_song_time t h) = Ok tt
  /\ (sent (snd (notify_current_song_time t h)) = sent h
      \/ sent (snd (notify_current_song_time t h)) = sent h ++ [beat_message t]).
Proof.
  unfold notify_current_song_time, bind, modify, gets. simpl.
  destruct (call_listeners_any (current_song_time_listeners (song h))
              (with_song (set_current_song_time t) h)) as (h' & -> & _ & Hs).
  by split.
Qed.

Lemma edges_forward (ts : list Q) (last : Q) :
  nondecreasing last ts -> ascending_from (trunc last) (beats (edges ts last)).
Proof.
  revert last. induction ts as [| t ts IH]; intros last; [done |].
  intros [Hle Hts]. specialize (IH t Hts). simpl.
  assert (Hlt : float_lt t last = false).
  { destruct (float_lt t last) eqn:E; [| done].
    apply float_lt_iff in E. exfalso. exact (Qlt_not_le _ _ E Hle). }
  rewrite Hlt. simpl. pose proof (trunc_le _ _ Hle) as Htr.
  unfold beats in *. destruct (Z.gtb_spec (trunc t) (trunc last)) as [Hgt | Hngt]; simpl.
  - split; [lia | exact IH].
  - by replace (trunc last) with (trunc t) by lia.
Qed.

(** X2. While the song only moves forward, the announced beats only go up:
    with the callback registered once, a sequence of notifications whose
    times never decrease (starting from the stored time) makes the handler
    announce strictly increasing beat numbers, all above the integer part of
    the stored time; no beat is announced twice. *)
Theorem forward_playback_announces_increasing_beats (ts : list Q) (h : SongHandler) :
  registrations (song h) = 1%nat ->
  nondecreasing (last_song_time h) ts ->
  ascending_from (trunc (last_song_time h)) (beats (deliver ts h)).
Proof.
  intros H Hts. rewrite (deliver_registered _ _ H). by apply edges_forward.
Qed.

Lemma notify_listeners (t : Q) (h : SongHandler) :
  current_song_time_listeners (song (snd (notify_current_song_time t h)))
  = current_song_time_listeners (song h).
Proof.
  unfold notify_current_song_time, bind, modify, gets. simpl.
  destruct (call_listeners_any (current_song_time_listeners (song h))
              (with_song (set_current_song_time t) h)) as (h' & -> & Hg & _).
  simpl. by rewrite Hg.
Qed.

Lemma after_notifications_idle (ts : list Q) (h : SongHandler) :
  registrations (song h) = 0%nat ->
  registrations (song (after_notifications ts h)) = 0%nat
  /\ last_song_time (after_notifications ts h) = last_song_time h
  /\ sent (after_notifications ts h) = sent h.
Proof.
  revert h. induction ts as [| t ts IH]; intros h H; [done |].
  unfold after_notifications. simpl. rewrite (notify_idle _ _ H). simpl.
  apply (IH (with_song (set_current_song_time t) h)). exact H.
Qed.

(** X3. While the listener is stopped the handler does not follow the song:
    after stop_listen, any notifications leave the stored time and the sent
    messages as they were, and the first notification after the next
    start_listen is compared with the time stored before the stop. *)
Theorem stopped_listener_keeps_stale_time
    (strict : bool) (ts : list Q) (t : Q) (h : SongHandler) :
  (registrations (song h) <= 1)%nat ->
  let stopped := after_notifications ts (snd (stop_beat_listener h)) in
  let restarted := snd (start_beat_listener strict stopped) in
  last_song_time stopped = last_song_time h
  /\ sent stopped = sent h
  /\ fst (emitted_by t restarted)
     = if float_lt t (last_song_time h) || (trunc t >? trunc (last_song_time h))
       then [beat_message t] else [].
Proof.
  intros H stopped restarted.
  destruct (stop_beat_listener_total h) as (h1 & E & Hn & Hl & Hs).
  assert (H0 : registrations (song h1) = 0%nat) by lia.
  destruct (after_notifications_idle ts h1 H0) as (Hn' & Hl' & Hs').
  subst stopped restarted. rewrite E. cbn [fst snd].
  split; [congruence |]. split; [congruence |].
  destruct (start_beat_listener_run strict (after_notifications ts h1))
    as (h2 & E2 & Hn2 & Hl2 & _); [lia |].
  rewrite E2. cbn [fst snd]. rewrite (emitted_by_registered _ _ Hn2). cbn [fst snd].
  by rewrite Hl2, Hl', Hl.
Qed.

(** X4. Teardown adds no failure of its own and removes the beat listener:
    [clear_api] returns exactly what the base class's [clear_api] returns,
    and when that returns normally one registration of the callback is gone
    (none is left when there was at most one), with the stored time and the
    sent messages untouched. *)
Theorem clear_api_removes_beat_listener (super_clear_api : M unit) (h : SongHandler) :
  fst (clear_api super_clear_api h) = fst (super_clear_api h)
  /\ (fst (super_clear_api h) = Ok tt ->
      registrations (song (snd (clear_api super_clear_api h)))
      = Nat.pred (registrations (song (snd (super_clear_api h))))
      /\ last_song_time (snd (clear_api super_clear_api h))
         = last_song_time (snd (super_clear_api h))
      /\ sent (snd (clear_api super_clear_api h)) = sent (snd (super_clear_api h))).
Proof.
  unfold clear_api, bind. destruct (super_clear_api h) as [[[] | e] h1]; simpl.
  - unfold try_except_pass, host_call, remove_current_song_time_listener.
    destruct (decide (registrations (song h1) = 0%nat)) as [H0 | H0].
    + rewrite (remove_first_none _ H0). simpl. split; [done |]. intros _.
      by rewrite H0.
    + destruct (remove_first_some _ H0) as (ls' & -> & Hn). simpl.
      split; [done |]. intros _. unfold registrations in *. simpl.
      rewrite Hn. done.
  - split; [done |]. discriminate.
Qed.

(** ** The track_data query: the remaining tokens, failures and effects *)

Lemma getattr_lookup (attrs : gmap string value) (p : string) (v : value) :
  attrs !! p = Some v -> getattr attrs p = Ok v.
Proof. unfold getattr. by intros ->. Qed.

(** X5. A [device.<prop>] token appends one value per device of the track,
    in device-chain order, and nothing for a track without devices; the
    number of values follows the number of devices. *)
Theorem device_token_one_value_per_device
    (track : Track) (s p : string) (vs rv : list value) (h : SongHandler) :
  split_dot s = ["device"; p]%string ->
  Forall2 (fun device v => device_attrs device !! p = Some v) (devices track) vs ->
  track_data_prop track (VStr s) rv h = (Ok (rv ++ vs), h)
  /\ length vs = length (devices track).
Proof.
  intros Hs Hvs. split; [| symmetry; by eapply Forall2_length].
  rewrite track_data_prop_run. unfold token_values, token_logs. simpl.
  rewrite Hs. simpl. rewrite add_logs_nil.
  rewrite (collect_one_Forall2 (fun device => getattr (device_attrs device) p) _ vs);
    [done |].
  eapply Forall2_impl; [exact Hvs |]. intros d v. apply getattr_lookup.
Qed.

(** X6. A [clip_slot.<prop>] token appends the slot's own property for every
    clip slot of the track, in slot order, whether or not the slot holds a
    clip. *)
Theorem clip_slot_token_one_value_per_slot
    (track : Track) (s p : string) (vs rv : list value) (h : SongHandler) :
  split_dot s = ["clip_slot"; p]%string ->
  Forall2 (fun clip_slot v => clip_slot_attrs clip_slot !! p = Some v)
    (clip_slots track) vs ->
  track_data_prop track (VStr s) rv h = (Ok (rv ++ vs), h)
  /\ length vs = length (clip_slots track).
Proof.
  intros Hs Hvs. split; [| symmetry; by eapply Forall2_length].
  rewrite track_data_prop_run. unfold token_values, token_logs. simpl.
  rewrite Hs. simpl. rewrite add_logs_nil.
  rewrite (collect_one_Forall2
             (fun clip_slot => getattr (clip_slot_attrs clip_slot) p) _ vs); [done |].
  eapply Forall2_impl; [exact Hvs |]. intros d v. apply getattr_lookup.
Qed.

Lemma song_get_track_data_state (str_to_int : string -> option Z)
    (params : list value) (h : SongHandler) :
  exists l, snd (song_get_track_data str_to_int params h) = add_logs l h.
Proof.
  assert (Hnone : exists l, h = add_logs l h).
  { exists []. by rewrite add_logs_nil. }
  destruct params as [| p_min [| p_max properties]]; try exact Hnone.
  unfold song_get_track_data.
  unfold bind at 1. unfold lift at 1.
  destruct (py_int str_to_int p_min) as [lo | e]; [| exact Hnone].
  unfold bind at 1. unfold lift at 1.
  destruct (py_int str_to_int p_max) as [hi | e]; [| exact Hnone].
  unfold bind at 1. unfold logger_info, modify.
  set (info := Info_getting_track_data properties lo hi).
  change (with_logged info h) with (add_logs [info] h).
  unfold bind at 1.
  assert (E : (if hi =? -1 then gets (fun h => Z.of_nat (length (tracks (song h))))
               else ret hi) (add_logs [info] h)
              = (Ok (if hi =? -1 then Z.of_nat (length (tracks (song h))) else hi),
                 add_logs [info] h)).
  { by destruct (hi =? -1). }
  rewrite E.
  destruct (for_in_appends (song h) (track_data_track properties)
              (track_values h properties)
              (range lo (if hi =? -1 then Z.of_nat (length (tracks (song h))) else hi))
              (fun i => track_data_track_appends h properties i)) as [l H].
  rewrite (H [] (add_logs [info] h) eq_refl). simpl.
  exists ([info] ++ l). by rewrite add_logs_app.
Qed.

(** X7. The query only reads: whatever the arguments and whether it returns
    or raises, the song, the stored beat time and the sent messages are as
    before, and the log has only grown. *)
Theorem track_data_only_reads (str_to_int : string -> option Z)
    (params : list value) (h : SongHandler) :
  song (snd (song_get_track_data str_to_int params h)) = song h
  /\ last_song_time (snd (song_get_track_data str_to_int params h)) = last_song_time h
  /\ sent (snd (song_get_track_data str_to_int params h)) = sent h
  /\ exists l, logged (snd (song_get_track_data str_to_int params h)) = logged h ++ l.
Proof.
  destruct (song_get_track_data_state str_to_int params h) as [l ->].
  repeat split. by exists l.
Qed.

Lemma collect_raises {A : Type} (f : A -> result (list value)) (xs : list A)
    (k : nat) (x : A) (e : exn) :
  xs !! k = Some x -> f x = Raise e -> exists e', collect f xs = Raise e'.
Proof.
  revert k. induction xs as [| y xs IH]; intros k Hk Hx; [done |].
  simpl. destruct k as [| k]; simpl in Hk.
  - injection Hk as ->. rewrite Hx. by eexists.
  - destruct (f y) as [vs | e']; [| by eexists].
    destruct (IH k Hk Hx) as [e' ->]. by eexists.
Qed.

(** X8. The track range is not clamped to the track list: when the range is
    not empty and reaches past the last track (or starts below minus the
    track count), the query raises, whatever tokens were asked for, and
    returns no values. *)
Theorem track_data_range_not_clamped (str_to_int : string -> option Z)
    (p_min p_max : value) (properties : list value) (h : SongHandler) (lo hi : Z) :
  py_int str_to_int p_min = Ok lo ->
  py_int str_to_int p_max = Ok hi ->
  let count := Z.of_nat (length (tracks (song h))) in
  let upper := if hi =? -1 then count else hi in
  lo < upper ->
  count < upper \/ lo < - count ->
  exists e,
    fst (song_get_track_data str_to_int (p_min :: p_max :: properties) h) = Raise e.
Proof.
  intros Hlo Hhi count upper Hne Hout.
  rewrite song_get_track_data_collect, Hlo, Hhi.
  unfold track_major_token_minor. fold count. fold upper.
  assert (Hi : exists i, lo <= i < upper /\ (i < - count \/ count <= i)).
  { destruct Hout as [H | H]; [exists (Z.max lo count) | exists lo]; lia. }
  destruct Hi as (i & Hrange & Hi).
  apply (collect_raises _ _ (Z.to_nat (i - lo)) i IndexError).
  - apply range_lookup. lia.
  - unfold track_values. fold count. by rewrite (getitem_outside _ _ Hi).
Qed.

Lemma index_from_absent (r : ref) (ts : list Track) (start : Z) :
  (forall t, t ∈ ts -> track_ref t <> r) -> index_from r ts start = Raise ValueError.
Proof.
  revert start. induction ts as [| t ts IH]; intros start H; [done |].
  simpl. destruct (Nat.eqb_spec (track_ref t) r) as [E | E].
  - exfalso. apply (H t); [by left | exact E].
  - apply IH. intros t' Hin. apply H. by right.
Qed.

(** X9. A [track.<prop>] token whose value is a track that is not in the
    song's track list (a return track or the master track) makes the query
    raise [ValueError]: the reference is neither returned nor skipped. *)
Theorem track_token_foreign_track_raises
    (track : Track) (s p : string) (r : ref) (rv : list value) (h : SongHandler) :
  split_dot s = ["track"; p]%string ->
  p <> "num_devices"%string ->
  track_attrs track !! p = Some (VTrack r) ->
  (forall t, t ∈ tracks (song h) -> track_ref t <> r) ->
  track_data_prop track (VStr s) rv h = (Raise ValueError, h).
Proof.
  intros Hs Hp Hattr Habsent.
  rewrite track_data_prop_run. unfold token_values, token_logs. simpl.
  rewrite Hs. simpl. rewrite add_logs_nil. unfold track_token_value.
  apply String.eqb_neq in Hp. rewrite Hp. unfold getattr. rewrite Hattr.
  unfold index. by rewrite (index_from_absent _ _ _ Habsent).
Qed.

(** ** Track names and scene names *)

Lemma collect_one_traverse {A : Type} (f : A -> result value) (xs : list A) :
  collect (fun x => one (f x)) xs = traverse f xs.
Proof.
  induction xs as [| x xs IH]; simpl; [done |].
  rewrite IH. unfold rbind. destruct (f x) as [v | e]; simpl; [| done].
  by destruct (traverse f xs).
Qed.

Lemma traverse_ext {A B : Type} (f g : A -> result B) (xs : list A) :
  (forall x, f x = g x) -> traverse f xs = traverse g xs.
Proof.
  intros H. induction xs as [| x xs IH]; simpl; [done |]. by rewrite H, IH.
Qed.

Lemma traverse_Forall2 {A B : Type} (f : A -> result B) (xs : list A) (ys : list B) :
  Forall2 (fun x y => f x = Ok y) xs ys -> traverse f xs = Ok ys.
Proof.
  induction 1 as [| x y xs ys Hx _ IH]; simpl; [done |]. by rewrite Hx, IH.
Qed.

Lemma getitem_nonneg {A : Type} (l : list A) (i : Z) (x : A) :
  0 <= i -> l !! Z.to_nat i = Some x -> getitem l i = Ok x.
Proof.
  intros Hi Hl. unfold getitem.
  pose proof (lookup_lt_Some _ _ _ Hl) as Hlt.
  destruct (Z.ltb_spec i 0); [lia |].
  destruct (Z.ltb_spec i 0); [lia |].
  destruct (Z.leb_spec (Z.of_nat (length l)) i); [lia |]. simpl. by rewrite Hl.
Qed.

Lemma getitem_elem_of {A : Type} (l : list A) (i : Z) (x : A) :
  getitem l i = Ok x -> x ∈ l.
Proof.
  unfold getitem. destruct (_ || _); [done |].
  destruct (l !! _) as [y |] eqn:E; [| done].
  intros [= <-]. by eapply list_elem_of_lookup_2.
Qed.

(** Reading a whole sequence through its indices reads it in order. *)
Lemma traverse_getitem {A B : Type} (f : A -> result B) (pre xs : list A) :
  traverse (fun index => let? x := getitem (pre ++ xs) index in f x)
    (range (Z.of_nat (length pre)) (Z.of_nat (length (pre ++ xs))))
  = traverse f xs.
Proof.
  revert pre. induction xs as [| x xs IH]; intros pre.
  - rewrite app_nil_r. by rewrite range_empty.
  - rewrite range_cons by (rewrite length_app; simpl; lia). simpl.
    rewrite (getitem_nonneg _ _ x); [| lia |].
    + simpl. f_equal. specialize (IH (pre ++ [x])).
      rewrite <- app_assoc in IH. simpl in IH.
      rewrite length_app in IH. simpl in IH.
      replace (Z.of_nat (length pre + 1)) with (Z.of_nat (length pre) + 1) in IH by lia.
      by rewrite IH.
    + rewrite Nat2Z.id. by rewrite list_lookup_middle.
Qed.

Lemma names_of_all {A : Type} (attrs : A -> gmap string value) (xs : list A)
    (vs : list value) :
  Forall2 (fun x v => attrs x !! "name"%string = Some v) xs vs ->
  names_in_range attrs xs (VInt 0) (VInt (Z.of_nat (length xs))) = Ok vs.
Proof.
  intros H.
  transitivity (traverse (fun x => getattr (attrs x) "name") xs).
  - exact (traverse_getitem (fun x => getattr (attrs x) "name") [] xs).
  - apply traverse_Forall2. eapply Forall2_impl; [exact H |].
    intros x v. apply getattr_lookup.
Qed.

(** X10. Without arguments, and equally with the bounds 0 and -1 (given as an
    integer or as the float -1.0), /live/song/get/track_names returns the
    name of every track, in track order: as many values as
    /live/song/get/num_tracks reports. Any other number of arguments than
    zero or two raises [ValueError]. *)
Theorem track_names_of_all_tracks (s : Song) (vs : list value) :
  Forall2 (fun track v => track_attrs track !! "name"%string = Some v) (tracks s) vs ->
  song_get_track_names s [] = Ok vs
  /\ song_get_track_names s [VInt 0; VInt (-1)] = Ok vs
  /\ song_get_track_names s [VInt 0; VFloat (-1 # 1)] = Ok vs
  /\ song_get_num_tracks s = [VInt (Z.of_nat (length vs))]
  /\ (forall a, song_get_track_names s [a] = Raise ValueError)
  /\ (forall a b c rest, song_get_track_names s (a :: b :: c :: rest) = Raise ValueError).
Proof.
  intros H. pose proof (names_of_all track_attrs _ _ H) as E.
  repeat split; try exact E.
  unfold song_get_num_tracks. by rewrite (Forall2_length _ _ _ H).
Qed.

(** X11. For integer bounds, /live/song/get/track_names returns exactly what
    the track_data query returns for the single token [track.name] over the
    same bounds (values or exception), as long as no track's name is itself a
    track object. *)
Theorem track_names_agrees_with_track_data (str_to_int : string -> option Z)
    (a b : Z) (h : SongHandler) :
  (forall t r, t ∈ tracks (song h) -> track_attrs t !! "name"%string <> Some (VTrack r)) ->
  song_get_track_names (song h) [VInt a; VInt b]
  = fst (song_get_track_data str_to_int [VInt a; VInt b; VStr "track.name"] h).
Proof.
  intros Hname. rewrite song_get_track_data_collect. simpl.
  unfold track_major_token_minor, names_in_range. simpl.
  set (upper := if b =? -1 then Z.of_nat (length (tracks (song h))) else b).
  assert (Hupper : as_index (if b =? -1 then VInt (Z.of_nat (length (tracks (song h))))
                             else VInt b) = Ok upper).
  { subst upper. by destruct (b =? -1). }
  rewrite Hupper. simpl. rewrite <- collect_one_traverse.
  apply collect_ext. intros i. unfold track_values, rbind.
  destruct (getitem (tracks (song h)) i) as [t | e] eqn:Ei; [| done].
  simpl. rewrite prop_values_eq. unfold token_values. simpl.
  unfold track_token_value. simpl.
  pose proof (Hname t) as Ht. specialize (Ht) with (1 := getitem_elem_of _ _ _ Ei).
  unfold getattr. destruct (track_attrs t !! "name"%string) as [v |]; [| done].
  destruct v; simpl; try by rewrite ?app_nil_r.
  by destruct (Ht r).
Qed.

(** X12. /live/song/get/scenes/name without arguments returns the name of
    every scene in order, but it gives -1 no special meaning: with an upper
    bound of -1 and a lower bound of -1 or more it returns the empty tuple,
    unlike track_names. *)
Theorem scene_names_upper_bound_is_literal (x : SongRest) (vs : list value) :
  Forall2 (fun scene v => scene_attrs scene !! "name"%string = Some v) (scenes x) vs ->
  song_get_scene_names x [] = Ok vs
  /\ song_get_scene_names x [VInt 0; VInt (Z.of_nat (length (scenes x)))] = Ok vs
  /\ (forall lo, -1 <= lo -> song_get_scene_names x [VInt lo; VInt (-1)] = Ok []).
Proof.
  intros H. pose proof (names_of_all scene_attrs _ _ H) as E.
  split; [exact E |]. split; [exact E |].
  intros lo Hlo. unfold song_get_scene_names, names_in_range. simpl.
  by rewrite range_empty.
Qed.

(** ** Cue points *)

Lemma cue_points_flat (cps : list CuePoint) :
  concat (map (fun pair : value * value => [fst pair; snd pair])
            (map (fun c => (VStr (name c), VFloat (time c))) cps))
  = flat_map (fun c => [VStr (name c); VFloat (time c)]) cps.
Proof. induction cps as [| c cps IH]; simpl; [done |]. by rewrite IH. Qed.

Lemma flat_pairs_lookup (cps : list CuePoint) (k : nat) (c : CuePoint) :
  cps !! k = Some c ->
  flat_map (fun c => [VStr (name c); VFloat (time c)]) cps !! (2 * k)%nat
    = Some (VStr (name c))
  /\ flat_map (fun c => [VStr (name c); VFloat (time c)]) cps !! (2 * k + 1)%nat
     = Some (VFloat (time c)).
Proof.
  revert k. induction cps as [| c' cps IH]; intros k Hk; [done |].
  destruct k as [| k]; simpl in Hk.
  - injection Hk as ->. by split.
  - destruct (IH k Hk) as [H1 H2].
    replace (2 * S k)%nat with (S (S (2 * k))) by lia.
    replace (S (S (2 * k)) + 1)%nat with (S (S (2 * k + 1))) by lia.
    by split.
Qed.

Lemma flat_pairs_length (cps : list CuePoint) :
  length (flat_map (fun c => [VStr (name c); VFloat (time c)]) cps)
  = (2 * length cps)%nat.
Proof. induction cps as [| c cps IH]; simpl; [done |]. rewrite IH. lia. Qed.

(** X13. /live/song/get/cue_points returns two values per cue point, in cue
    point order: the name of the k-th cue point at position 2k and its time at
    position 2k+1. *)
Theorem cue_points_are_listed_in_pairs (s : Song) :
  length (song_get_cue_points s) = (2 * length (cue_points s))%nat
  /\ forall (k : nat) (c : CuePoint),
       cue_points s !! k = Some c ->
       song_get_cue_points s !! (2 * k)%nat = Some (VStr (name c))
       /\ song_get_cue_points s !! (2 * k + 1)%nat = Some (VFloat (time c)).
Proof.
  unfold song_get_cue_points. rewrite cue_points_flat. split.
  - apply flat_pairs_length.
  - intros k c. apply flat_pairs_lookup.
Qed.

Lemma song_cue_point_set_name_run (i : Z) (v : value) (rest : list value)
    (h : SongHandler) :
  song_cue_point_set_name (VInt i :: v :: rest) h
  = match getitem (cue_points (song h)) i with
    | Ok _ =>
        match v with
        | VStr n => (Ok tt, with_song (set_cue_point_name i n) h)
        | _ => (Raise TypeError, h)
        end
    | Raise e => (Raise e, h)
    end.
Proof.
  unfold song_cue_point_set_name.
  unfold bind at 1. unfold lift at 1. rewrite getitem_head.
  unfold bind at 1. unfold lift at 1.
  assert (E : getitem (VInt i :: v :: rest) 1 = Ok v).
  { apply getitem_nonneg; [lia | done]. }
  rewrite E. unfold bind, gets, lift. simpl.
  destruct (getitem (cue_points (song h)) i); [| done]. by destruct v.
Qed.

Lemma cue_point_set_name_inside
    (i : Z) (n : string) (rest : list value) (h : SongHandler) :
  - Z.of_nat (length (cue_points (song h))) <= i < Z.of_nat (length (cue_points (song h))) ->
  exists c h1,
    cue_points (song h) !! Z.to_nat (i mod Z.of_nat (length (cue_points (song h)))) = Some c
    /\ song_cue_point_set_name (VInt i :: VStr n :: rest) h = (Ok tt, h1)
    /\ cue_points (song h1) !! Z.to_nat (i mod Z.of_nat (length (cue_points (song h))))
       = Some (rename_cue n c)
    /\ (forall k, k <> Z.to_nat (i mod Z.of_nat (length (cue_points (song h)))) ->
          cue_points (song h1) !! k = cue_points (song h) !! k)
    /\ length (cue_points (song h1)) = length (cue_points (song h)).
Proof.
  intros Hi. rewrite song_cue_point_set_name_run.
  destruct (getitem_inside _ i Hi) as (c & Hget & Hc). rewrite Hget.
  exists c. eexists. split; [exact Hc |]. split; [reflexivity |]. simpl.
  set (cps := cue_points (song h)) in *.
  assert (Hj : Z.to_nat (if i <? 0 then i + Z.of_nat (length cps) else i)
               = Z.to_nat (i mod Z.of_nat (length cps))).
  { f_equal. destruct (Z.ltb_spec i 0).
    - apply (Z.mod_unique i _ (-1)); lia.
    - symmetry. apply Z.mod_small. lia. }
  rewrite Hj. split; [| split].
  - by rewrite list_lookup_alter_eq, Hc.
  - intros k Hk. by apply list_lookup_alter_ne.
  - apply length_alter.
Qed.

(** X14. Renaming a cue point: for an index within the list (negative
    indices count from the end) and a string name, the handler returns
    normally; afterwards the cue point at that position carries the new name
    with its identity and time unchanged, every other cue point is as before,
    and /live/song/get/cue_points shows the new name at that position. *)
Theorem cue_point_set_name_then_get
    (i : Z) (n : string) (rest : list value) (h : SongHandler) :
  let cps := cue_points (song h) in
  let len := Z.of_nat (length cps) in
  let j := Z.to_nat (i mod len) in
  let run := song_cue_point_set_name (VInt i :: VStr n :: rest) h in
  - len <= i < len ->
  exists c,
    cps !! j = Some c
    /\ fst run = Ok tt
    /\ cue_points (song (snd run)) !! j
       = Some {| cue_ref := cue_ref c; name := n; time := time c |}
    /\ (forall k, k <> j -> cue_points (song (snd run)) !! k = cps !! k)
    /\ length (cue_points (song (snd run))) = length cps
    /\ song_get_cue_points (song (snd run)) !! (2 * j)%nat = Some (VStr n)
    /\ song_get_cue_points (song (snd run)) !! (2 * j + 1)%nat = Some (VFloat (time c)).
Proof.
  intros cps len j run Hi. subst run.
  destruct (cue_point_set_name_inside i n rest h Hi)
    as (c & h1 & Hc & -> & Hnew & Hother & Hlen).
  exists c. cbn [fst snd]. repeat split; try done.
  - unfold song_get_cue_points. rewrite cue_points_flat.
    exact (proj1 (flat_pairs_lookup _ _ _ Hnew)).
  - unfold song_get_cue_points. rewrite cue_points_flat.
    exact (proj2 (flat_pairs_lookup _ _ _ Hnew)).
Qed.

(** X15. A failed rename changes nothing: whenever the handler raises, the
    handler and the song are exactly as before. It raises [IndexError] when
    fewer than two arguments are given or the index lies outside the list,
    and [TypeError] when the index is not an integer. *)
Theorem cue_point_set_name_failure (params : list value) (h : SongHandler) :
  (forall e, fst (song_cue_point_set_name params h) = Raise e ->
             snd (song_cue_point_set_name params h) = h)
  /\ ((length params < 2)%nat ->
      song_cue_point_set_name params h = (Raise IndexError, h))
  /\ (forall i v rest,
        params = VInt i :: v :: rest ->
        i < - Z.of_nat (length (cue_points (song h)))
        \/ Z.of_nat (length (cue_points (song h))) <= i ->
        song_cue_point_set_name params h = (Raise IndexError, h))
  /\ (forall a v rest,
        params = a :: v :: rest -> is_int a = false ->
        song_cue_point_set_name params h = (Raise TypeError, h)).
Proof.
  split; [| split; [| split]].
  - intros e. unfold song_cue_point_set_name, bind, lift, gets, modify, raise.
    destruct (getitem params 0) as [a |]; [| done].
    destruct (getitem params 1) as [v |]; [| done].
    destruct (as_index a) as [i |]; [| done].
    destruct (getitem (cue_points (song h)) i); [| done].
    by destruct v.
  - intros Hlen. destruct params as [| a [| v rest]]; simpl in Hlen; try lia.
    + reflexivity.
    + unfold song_cue_point_set_name.
      unfold bind at 1. unfold lift at 1. rewrite getitem_head.
      unfold bind at 1. unfold lift at 1. reflexivity.
  - intros i v rest -> Hi. rewrite song_cue_point_set_name_run.
    by rewrite (getitem_outside _ _ Hi).
  - intros a v rest -> Ha. unfold song_cue_point_set_name.
    unfold bind at 1. unfold lift at 1. rewrite getitem_head.
    unfold bind at 1. unfold lift at 1.
    assert (E : getitem (a :: v :: rest) 1 = Ok v).
    { apply getitem_nonneg; [lia | done]. }
    rewrite E. unfold bind, gets, lift. by destruct a.
Qed.

Lemma jump_by_name_song (s : string) (rest : list value) (h : SongHandler) :
  song_jump_to_cue_point (VStr s :: rest) h
  = (Ok tt, with_song (jump_all (filter (fun c => name c = s) (cue_points (song h)))) h).
Proof.
  unfold song_jump_to_cue_point.
  unfold bind at 1. unfold lift at 1. rewrite getitem_head.
  unfold bind, gets. apply jump_by_name_run.
Qed.

(** X16. A renamed cue point can be reached by its new name: after a
    successful rename of the cue point at an index to a name, a jump request
    with that name calls [jump()] on that cue point. *)
Theorem renamed_cue_point_is_jumped_by_name (i : Z) (n : string) (h : SongHandler) :
  let cps := cue_points (song h) in
  let len := Z.of_nat (length cps) in
  - len <= i < len ->
  exists c,
    cps !! Z.to_nat (i mod len) = Some c
    /\ cue_ref c ∈ jumped (song (snd (song_jump_to_cue_point [VStr n]
                                        (snd (song_cue_point_set_name
                                                [VInt i; VStr n] h))))).
Proof.
  intros cps len Hi.
  destruct (cue_point_set_name_inside i n [] h Hi)
    as (c & h1 & Hc & -> & Hnew & _).
  exists c. split; [exact Hc |]. cbn [fst snd]. rewrite jump_by_name_song.
  cbn [fst snd]. simpl. rewrite jump_all_jumped. apply elem_of_app. right.
  change (cue_ref c) with (cue_ref (rename_cue n c)).
  apply list_elem_of_In, in_map, list_elem_of_In.
  apply list_elem_of_filter. split; [done |].
  by eapply list_elem_of_lookup_2.
Qed.

(** ** Colours *)

Lemma hex_value_digit (n : Z) : 0 <= n < 16 -> hex_value (hex_digit n) = Some n.
Proof.
  intros H. set (k := Z.to_nat n).
  assert (Hk : (k < 16)%nat) by lia.
  replace n with (Z.of_nat k) by lia. clearbody k. clear H.
  do 16 (destruct k as [| k]; [reflexivity |]). lia.
Qed.

Lemma hex_number_byte (b acc : Z) (rest : string) :
  0 <= b < 256 ->
  hex_number (format_02x b +:+ rest) acc = hex_number rest (256 * acc + b).
Proof.
  intros H. unfold format_02x. simpl.
  rewrite !hex_value_digit.
  - f_equal. pose proof (Z.div_mod b 16). lia.
  - apply Z.mod_pos_bound. lia.
  - split; [apply Z.div_pos; lia | apply Z.div_lt_upper_bound; lia].
Qed.

Lemma low_byte (x : Z) : Z.land x 255 = x mod 256.
Proof. exact (Z.land_ones x 8 ltac:(lia)). Qed.

Lemma colour_channels (c : Z) :
  256 * (256 * ((c / 65536) mod 256) + (c / 256) mod 256) + c mod 256
  = c mod 16777216.
Proof.
  pose proof (Z.div_mod c 256 ltac:(lia)).
  pose proof (Z.div_mod (c / 256) 256 ltac:(lia)).
  pose proof (Z.div_mod (c / 256 / 256) 256 ltac:(lia)).
  pose proof (Z.mod_pos_bound c 256 ltac:(lia)).
  pose proof (Z.mod_pos_bound (c / 256) 256 ltac:(lia)).
  pose proof (Z.mod_pos_bound (c / 256 / 256) 256 ltac:(lia)).
  rewrite (Z.div_div c 256 256) in * by lia. change (256 * 256) with 65536 in *.
  apply (Z.mod_unique_pos _ _ (c / 65536 / 256)); lia.
Qed.

(** X17. The colour string determines the low 24 bits of the packed colour
    and nothing else: for every integer [c] (negative ones included) the
    string is "#" followed by six hexadecimal digits that read back as
    [c & 0xFFFFFF], so two colours get the same string exactly when their
    low 24 bits agree. *)
Theorem color_hex_round_trip (c : Z) :
  String.length (color_hex c) = 7%nat
  /\ parse_color (color_hex c) = Some (Z.land c 16777215)
  /\ (forall c', color_hex c = color_hex c' <-> Z.land c 16777215 = Z.land c' 16777215).
Proof.
  assert (Hparse : forall c, parse_color (color_hex c) = Some (Z.land c 16777215)).
  { intros x. unfold parse_color, color_hex.
    change (String.length _ =? 6)%nat with true. cbv iota.
    rewrite !Z.shiftr_div_pow2 by lia. rewrite !low_byte.
    change (2 ^ 16) with 65536. change (2 ^ 8) with 256.
    rewrite !hex_number_byte by (apply Z.mod_pos_bound; lia).
    replace (format_02x (x mod 256)) with (format_02x (x mod 256) +:+ "")
      by (unfold format_02x; reflexivity).
    rewrite hex_number_byte by (apply Z.mod_pos_bound; lia).
    simpl hex_number. f_equal.
    change 16777215 with (Z.ones 24). rewrite Z.land_ones by lia.
    change (2 ^ 24) with 16777216. rewrite <- colour_channels. lia. }
  split; [reflexivity |]. split; [apply Hparse |].
  intros c'. split.
  - intros E. pose proof (Hparse c) as H1. rewrite E, Hparse in H1. by injection H1.
  - intros E. unfold color_hex.
    assert (Hc : forall x, x mod 16777216 = Z.land x 16777215).
    { intros x. change 16777215 with (Z.ones 24). by rewrite Z.land_ones by lia. }
    rewrite !Z.shiftr_div_pow2 by lia. rewrite !low_byte.
    change (2 ^ 16) with 65536. change (2 ^ 8) with 256.
    assert (Hch : forall x, (x / 65536) mod 256 = (x mod 16777216 / 65536) mod 256
                            /\ (x / 256) mod 256 = (x mod 16777216 / 256) mod 256
                            /\ x mod 256 = (x mod 16777216) mod 256).
    { intros x. pose proof (Z.div_mod x 16777216 ltac:(lia)) as Hx.
      pose proof (Z.mod_pos_bound x 16777216 ltac:(lia)).
      set (q := x / 16777216) in *. set (r := x mod 16777216) in *.
      rewrite Hx. repeat split.
      - replace (16777216 * q + r) with (r + (256 * q) * 65536) by lia.
        rewrite Z.div_add by lia.
        replace (r / 65536 + 256 * q) with (r / 65536 + q * 256) by lia.
        by rewrite Z.mod_add by lia.
      - replace (16777216 * q + r) with (r + (65536 * q) * 256) by lia.
        rewrite Z.div_add by lia.
        replace (r / 256 + 65536 * q) with (r / 256 + (256 * q) * 256) by lia.
        by rewrite Z.mod_add by lia.
      - replace (16777216 * q + r) with (r + (65536 * q) * 256) by lia.
        by rewrite Z.mod_add by lia. }
    destruct (Hch c) as (-> & -> & ->). destruct (Hch c') as (-> & -> & ->).
    by rewrite !Hc, E.
Qed.

(** ** /live/song/get/session_info *)

Lemma session_info_track_iff (t : Track) (ns : list value) (cs : list string)
    (ms : list bool) (acc' : list value * list string * list bool) :
  session_info_track t (ns, cs, ms) = Ok acc'
  <-> exists n c m, track_summary t n c m /\ acc' = (ns ++ [n], cs ++ [c], ms ++ [m]).
Proof.
  unfold session_info_track, track_summary, rbind, getattr. split.
  - destruct (track_attrs t !! "name"%string) as [n |]; [| done].
    destruct (track_attrs t !! "color"%string) as [cv |]; [| done].
    destruct (color_of cv) as [c |] eqn:Ec; [| done].
    destruct (track_attrs t !! "has_midi_input"%string) as [flag |]; [| done].
    intros [= <-]. exists n, (color_hex c), (truthy flag).
    split; [| done]. split; [done |]. split; [by exists cv, c | by exists flag].
  - intros (n & c & m & (Hn & (cv & z & Hc & Hz & ->) & (flag & Hf & ->)) & ->).
    by rewrite Hn, Hc, Hz, Hf.
Qed.

Lemma session_info_tracks_iff (ts : list Track) (ns0 : list value) (cs0 : list string)
    (ms0 : list bool) (r : list value * list string * list bool) :
  session_info_tracks ts (ns0, cs0, ms0) = Ok r
  <-> exists ns cs ms, summaries ts ns cs ms /\ r = (ns0 ++ ns, cs0 ++ cs, ms0 ++ ms).
Proof.
  revert ns0 cs0 ms0. induction ts as [| t ts IH]; intros ns0 cs0 ms0.
  - simpl. split.
    + intros [= <-]. exists [], [], []. by rewrite !app_nil_r.
    + intros (ns & cs & ms & H & ->). destruct ns, cs, ms; try done.
      by rewrite !app_nil_r.
  - change (session_info_tracks (t :: ts) (ns0, cs0, ms0))
      with (rbind (session_info_track t (ns0, cs0, ms0)) (session_info_tracks ts)).
    unfold rbind at 1. split.
    + destruct (session_info_track t (ns0, cs0, ms0)) as [acc' |] eqn:E; [| done].
      apply session_info_track_iff in E as (n & c & m & Ht & ->).
      intros H. apply IH in H as (ns & cs & ms & Hs & ->).
      exists (n :: ns), (c :: cs), (m :: ms). split; [done |].
      by rewrite <- !app_assoc.
    + intros (ns & cs & ms & H & ->).
      destruct ns as [| n ns], cs as [| c cs], ms as [| m ms]; try done.
      destruct H as [Ht Hs].
      assert (E : session_info_track t (ns0, cs0, ms0)
                  = Ok (ns0 ++ [n], cs0 ++ [c], ms0 ++ [m])).
      { apply session_info_track_iff. by exists n, c, m. }
      rewrite E. apply IH. exists ns, cs, ms. split; [done |].
      by rewrite <- !app_assoc.
Qed.

Lemma summaries_length (ts : list Track) (ns : list value) (cs : list string)
    (ms : list bool) :
  summaries ts ns cs ms ->
  length ns = length ts /\ length cs = length ts /\ length ms = length ts.
Proof.
  revert ns cs ms. induction ts as [| t ts IH]; intros ns cs ms H;
    destruct ns, cs, ms; try done.
  destruct H as [_ H]. destruct (IH _ _ _ H) as (? & ? & ?). simpl. lia.
Qed.

(** X18. The session summary succeeds exactly when every track has a name,
    an integer colour and the MIDI-input flag, and then its three arrays run
    parallel to the track list: one name, one colour string and one boolean
    per track, in track order, next to the scene count, the root note and the
    scale name. The handler returns the one string [json.dumps] makes of
    this. *)
Theorem session_info_arrays_are_parallel (json_dumps : json -> result string)
    (s : Song) (x : SongRest) :
  (forall d, session_info_data s x = Ok d
             <-> exists ns cs ms, summaries (tracks s) ns cs ms
                                  /\ d = session_info_json x ns cs ms)
  /\ (forall ns cs ms, summaries (tracks s) ns cs ms ->
        length ns = length (tracks s)
        /\ length cs = length (tracks s)
        /\ length ms = length (tracks s))
  /\ (forall text, session_info json_dumps s x = Ok [VStr text]
                   <-> exists ns cs ms, summaries (tracks s) ns cs ms
                         /\ json_dumps (session_info_json x ns cs ms) = Ok text).
Proof.
  assert (Hdata : forall d, session_info_data s x = Ok d
             <-> exists ns cs ms, summaries (tracks s) ns cs ms
                                  /\ d = session_info_json x ns cs ms).
  { intros d. unfold session_info_data, rbind. split.
    - destruct (session_info_tracks (tracks s) ([], [], [])) as [r |] eqn:E; [| done].
      apply session_info_tracks_iff in E as (ns & cs & ms & H & ->).
      intros [= <-]. by exists ns, cs, ms.
    - intros (ns & cs & ms & H & ->).
      assert (E : session_info_tracks (tracks s) ([], [], []) = Ok (ns, cs, ms)).
      { apply session_info_tracks_iff. by exists ns, cs, ms. }
      by rewrite E. }
  split; [exact Hdata |]. split; [intros ns cs ms; apply summaries_length |].
  intros text. unfold session_info, rbind. split.
  - destruct (session_info_data s x) as [d |] eqn:E; [| done].
    destruct (proj1 (Hdata d) eq_refl) as (ns & cs & ms & H & ->).
    destruct (json_dumps _) as [t |] eqn:Et; [| done].
    intros [= <-]. by exists ns, cs, ms.
  - intros (ns & cs & ms & H & Et).
    assert (E : session_info_data s x = Ok (session_info_json x ns cs ms)).
    { apply Hdata. by exists ns, cs, ms. }
    by rewrite E, Et.
Qed.

(** ** /live/song/get/clip_grid *)

(** *** Keys *)

Lemma format_d_inj (a b : nat) : format_d a = format_d b -> a = b.
Proof.
  unfold format_d. intros H. apply DecimalNat.Unsigned.to_uint_inj.
  apply (f_equal DecimalString.NilEmpty.uint_of_string) in H.
  rewrite !DecimalString.NilEmpty.usu in H. by injection H.
Qed.

Lemma format_d_no_comma (n : nat) : has_comma (format_d n) = false.
Proof.
  unfold format_d. generalize (Nat.to_uint n). intros d.
  induction d; simpl; done.
Qed.

Lemma comma_split (a a' b b' : string) :
  has_comma a = false -> has_comma a' = false ->
  a +:+ "," +:+ b = a' +:+ "," +:+ b' -> a = a' /\ b = b'.
Proof.
  revert a'. induction a as [| c r IH]; intros a' Ha Ha' H.
  - destruct a' as [| c' r']; cbn in H.
    + injection H as H. cbn in H. by subst.
    + injection H as E _. subst c'. by cbn in Ha'.
  - destruct a' as [| c' r']; cbn in H.
    + injection H as E _. subst c. by cbn in Ha.
    + injection H as E H. subst c'. cbn in Ha, Ha'.
      apply orb_false_iff in Ha as [_ Ha]. apply orb_false_iff in Ha' as [_ Ha'].
      destruct (IH r' Ha Ha' H) as [-> ->]. done.
Qed.

(** The keys of the grid tell the cells apart. *)
Lemma grid_key_inj (i j i' j' : nat) :
  grid_key i j = grid_key i' j' -> i = i' /\ j = j'.
Proof.
  unfold grid_key. intros H.
  apply comma_split in H as [Hi Hj]; try apply format_d_no_comma.
  split; by apply format_d_inj.
Qed.

(** *** Dictionaries *)

Lemma dict_get_set_eq (k : string) (v : value) (d : dict) :
  dict_get k (dict_set k v d) = Some v.
Proof.
  induction d as [| [k' v'] d IH]; simpl.
  - by rewrite String.eqb_refl.
  - destruct (String.eqb k' k) eqn:E; simpl; [by rewrite String.eqb_refl |].
    by rewrite E.
Qed.

Lemma dict_get_set_ne (k k' : string) (v : value) (d : dict) :
  k <> k' -> dict_get k (dict_set k' v d) = dict_get k d.
Proof.
  intros Hne. induction d as [| [k0 v0] d IH]; simpl.
  - destruct (String.eqb_spec k' k); [congruence | done].
  - destruct (String.eqb_spec k0 k') as [-> | E]; simpl.
    + destruct (String.eqb_spec k' k); [congruence | done].
    + destruct (String.eqb_spec k0 k); [done | exact IH].
Qed.

Lemma dict_set_keys_parallel (k : string) (v w : value) (d1 d2 : dict) :
  map fst d1 = map fst d2 ->
  map fst (dict_set k v d1) = map fst (dict_set k w d2).
Proof.
  revert d2. induction d1 as [| [k1 v1] d1 IH]; intros [| [k2 v2] d2] H; try done.
  simpl in H. injection H as -> H. simpl.
  destruct (String.eqb k2 k); simpl; [by rewrite H |]. by rewrite (IH d2 H).
Qed.

Lemma dict_set_keys_elem (x k : string) (v : value) (d : dict) :
  x ∈ map fst (dict_set k v d) -> x = k \/ x ∈ map fst d.
Proof.
  induction d as [| [k' v'] d IH]; simpl.
  - intros H. apply list_elem_of_singleton in H. by left.
  - destruct (String.eqb_spec k' k) as [-> | E]; simpl.
    + intros H. by right.
    + intros H. apply elem_of_cons in H as [-> | H]; [right; by left |].
      destruct (IH H) as [-> | H']; [by left | right; by right].
Qed.

(** *** What the loops store *)

Lemma stores_nothing (P : string -> Clip -> Prop) (acc : dict * dict) :
  (forall k c, ~ P k c) -> stores P acc acc.
Proof.
  intros H. repeat split; try done.
  - intros k c HP. by destruct (H k c).
  - intros k Hk. by left.
Qed.

Lemma stores_ext (P Q : string -> Clip -> Prop) (a b : dict * dict) :
  (forall k c, P k c <-> Q k c) -> stores P a b -> stores Q a b.
Proof.
  intros H (HA & HB & HC & HD). repeat split.
  - intros k c HQ. apply HA. by apply H.
  - apply HB. intros c HP. apply (H0 c). by apply H.
  - apply HB. intros c HP. apply (H0 c). by apply H.
  - exact HC.
  - intros k Hk. destruct (HD k Hk) as [? | [c HP]]; [by left |].
    right. exists c. by apply H.
Qed.

Lemma stores_one (key : string) (c0 : Clip) (v col : value) (acc : dict * dict) :
  grid_name c0 v -> grid_color c0 col ->
  stores (fun k c => k = key /\ c = c0) acc
    (dict_set key v (fst acc), dict_set key col (snd acc)).
Proof.
  intros Hv Hcol. repeat split; simpl.
  - intros k c [-> ->]. exists v, col. by rewrite !dict_get_set_eq.
  - apply dict_get_set_ne. intros ->. by apply (H c0).
  - apply dict_get_set_ne. intros ->. by apply (H c0).
  - apply dict_set_keys_parallel.
  - intros k Hk. apply dict_set_keys_elem in Hk as [-> | Hk]; [| by left].
    right. by exists c0.
Qed.

Lemma stores_then (P Q : string -> Clip -> Prop) (a b c : dict * dict) :
  (forall k x y, P k x -> ~ Q k y) ->
  stores P a b -> stores Q b c ->
  stores (fun k x => P k x \/ Q k x) a c.
Proof.
  intros Hdisj (PA & PB & PC & PD) (QA & QB & QC & QD). repeat split.
  - intros k x [HP | HQ]; [| by apply QA].
    destruct (PA k x HP) as (v & col & H1 & Hv & H2 & Hcol).
    destruct (QB k) as [E1 E2]; [intros y; by apply (Hdisj k x) |].
    exists v, col. by rewrite E1, E2.
  - destruct (QB k) as [E1 _]; [intros y HQ; apply (H y); by right |].
    destruct (PB k) as [E2 _]; [intros y HP; apply (H y); by left |]. congruence.
  - destruct (QB k) as [_ E1]; [intros y HQ; apply (H y); by right |].
    destruct (PB k) as [_ E2]; [intros y HP; apply (H y); by left |]. congruence.
  - intros H. by apply QC, PC.
  - intros k Hk. destruct (QD k Hk) as [Hb | [y HQ]]; [| right; exists y; by right].
    destruct (PD k Hb) as [? | [y HP]]; [by left | right; exists y; by left].
Qed.

Lemma getattr_ok (attrs : gmap string value) (p : string) (v : value) :
  getattr attrs p = Ok v -> attrs !! p = Some v.
Proof. unfold getattr. destruct (attrs !! p); [by intros [= ->] | done]. Qed.

(** The cells from a slot on: the slot itself, then the cells after it. *)
Lemma slot_cells_cons (n i j0 : nat) (clip_slot : ClipSlot) (rest : list ClipSlot)
    (k : string) (c : Clip) :
  slot_cells n i j0 (clip_slot :: rest) k c
  <-> (clip clip_slot = Some c /\ (j0 < n)%nat /\ k = grid_key i j0)
      \/ slot_cells n i (S j0) rest k c.
Proof.
  unfold slot_cells. split.
  - intros (d & s & Hl & Hc & Hlt & ->). destruct d as [| d]; simpl in Hl.
    + injection Hl as <-. left. rewrite Nat.add_0_r in *. done.
    + right. exists d, s. replace (S j0 + d)%nat with (j0 + S d)%nat by lia. done.
  - intros [(Hc & Hlt & ->) | (d & s & Hl & Hc & Hlt & ->)].
    + exists 0%nat, clip_slot. rewrite Nat.add_0_r. done.
    + exists (S d), s. replace (j0 + S d)%nat with (S j0 + d)%nat by lia. done.
Qed.

Lemma slot_cells_later (n i j0 : nat) (slots : list ClipSlot) (k : string) (c : Clip) :
  slot_cells n i (S j0) slots k c -> k <> grid_key i j0.
Proof.
  intros (d & s & _ & _ & _ & ->) E. apply grid_key_inj in E as [_ E]. lia.
Qed.

Lemma clip_grid_slots_stores (n i : nat) (slots : list ClipSlot) (j0 : nat)
    (acc acc' : dict * dict) :
  for_enumerate j0 slots (clip_grid_slot n i) acc = Ok acc' ->
  stores (slot_cells n i j0 slots) acc acc'.
Proof.
  revert j0 acc. induction slots as [| clip_slot rest IH]; intros j0 acc H.
  - simpl in H. injection H as <-. apply stores_nothing.
    intros k c (d & s & Hl & _). done.
  - cbn [for_enumerate] in H. unfold rbind at 1 in H. unfold clip_grid_slot at 1 in H.
    destruct (Nat.leb_spec n j0) as [Hn | Hn].
    { simpl in H. injection H as <-. apply stores_nothing.
      intros k c (d & s & _ & _ & Hlt & _). lia. }
    destruct (clip clip_slot) as [c0 |] eqn:Ec.
    + unfold rbind in H.
      destruct (getattr (clip_attrs c0) "name") as [clip_name |] eqn:En; [| done].
      destruct (getattr (clip_attrs c0) "color") as [cv |] eqn:Ecv; [| done].
      destruct (color_of cv) as [z |] eqn:Ez; [| done].
      cbn [fst snd] in H. apply IH in H.
      eapply stores_ext; [intros k c; symmetry; apply slot_cells_cons |].
      eapply stores_ext;
        [| eapply stores_then; [| apply (stores_one (grid_key i j0) c0) | exact H]].
      * intros k c. cbn beta. rewrite Ec. split.
        -- intros [[-> ->] | ?]; [by left | by right].
        -- intros [([= ->] & _ & ->) | ?]; [by left | by right].
      * intros k x y [-> _] HQ. by apply slot_cells_later in HQ.
      * exists clip_name. split; [by apply getattr_ok | done].
      * exists cv, z. split; [by apply getattr_ok | done].
    + cbn [fst snd] in H. apply IH in H.
      eapply stores_ext; [| exact H].
      intros k c. rewrite slot_cells_cons, Ec. split; [by right |].
      by intros [(? & _) | ?].
Qed.

Lemma track_cells_cons (n i0 : nat) (track : Track) (rest : list Track)
    (k : string) (c : Clip) :
  track_cells n i0 (track :: rest) k c
  <-> slot_cells n i0 0 (clip_slots track) k c \/ track_cells n (S i0) rest k c.
Proof.
  unfold track_cells. split.
  - intros (e & t & Hl & H). destruct e as [| e]; simpl in Hl.
    + injection Hl as <-. left. by rewrite Nat.add_0_r in H.
    + right. exists e, t. replace (S i0 + e)%nat with (i0 + S e)%nat by lia. done.
  - intros [H | (e & t & Hl & H)].
    + exists 0%nat, track. rewrite Nat.add_0_r. done.
    + exists (S e), t. replace (i0 + S e)%nat with (S i0 + e)%nat by lia. done.
Qed.

Lemma clip_grid_tracks_stores (n : nat) (ts : list Track) (i0 : nat)
    (acc acc' : dict * dict) :
  for_enumerate i0 ts (clip_grid_track n) acc = Ok acc' ->
  stores (track_cells n i0 ts) acc acc'.
Proof.
  revert i0 acc. induction ts as [| track rest IH]; intros i0 acc H.
  - simpl in H. injection H as <-. apply stores_nothing.
    intros k c (e & t & Hl & _). done.
  - cbn [for_enumerate] in H. unfold rbind at 1 in H. unfold clip_grid_track at 1 in H.
    unfold rbind at 1 in H.
    destruct (for_enumerate 0 (clip_slots track) (clip_grid_slot n i0) acc)
      as [acc1 |] eqn:E1; [| done].
    cbn [fst snd] in H. apply IH in H. apply clip_grid_slots_stores in E1.
    eapply stores_ext; [intros k c; symmetry; apply track_cells_cons |].
    eapply stores_then; [| exact E1 | exact H].
    intros k x y (d & s & _ & _ & _ & ->) (e & t & _ & (d' & s' & _ & _ & _ & E)).
    apply grid_key_inj in E as [E _]. lia.
Qed.

Lemma grid_clip_cells (s : Song) (x : SongRest) (i j : nat) (c : Clip) :
  grid_clip s x i j = Some c
  <-> track_cells (length (scenes x)) 0 (tracks s) (grid_key i j) c.
Proof.
  unfold grid_clip, track_cells, slot_cells. split.
  - destruct (tracks s !! i) as [t |] eqn:Et; [| done].
    destruct (Nat.ltb_spec j (length (scenes x))) as [Hj | Hj]; [| done].
    destruct (clip_slots t !! j) as [slot |] eqn:Es; [| done].
    intros Hc. exists i, t. split; [done |]. exists j, slot. done.
  - intros (e & t & Et & d & slot & Es & Hc & Hlt & E).
    apply grid_key_inj in E as [-> ->]. simpl. rewrite Et.
    destruct (Nat.ltb_spec d (length (scenes x))) as [Hj | Hj]; [| simpl in Hlt; lia].
    by rewrite Es.
Qed.

(** X19. What the clip grid holds when the handler succeeds: under the key
    "<track>,<slot>" the name of the clip (or "(unnamed)" when the name is
    empty) and its colour string, for every slot that lies within the scenes
    and holds a clip; no entry for an empty slot or for a slot at or beyond
    the scene count, even if a clip sits there; no other keys at all; and
    the names and the colours have the same keys in the same order. *)
Theorem clip_grid_holds_the_occupied_cells
    (s : Song) (x : SongRest) (clips clip_colors : dict) :
  clip_grid_dicts s x = Ok (clips, clip_colors) ->
  (forall i j,
      match grid_clip s x i j with
      | Some c =>
          exists v col,
            dict_get (grid_key i j) clips = Some v /\ grid_name c v
            /\ dict_get (grid_key i j) clip_colors = Some col /\ grid_color c col
      | None =>
          dict_get (grid_key i j) clips = None
          /\ dict_get (grid_key i j) clip_colors = None
      end)
  /\ (forall k, k ∈ map fst clips ->
        exists i j c, k = grid_key i j /\ grid_clip s x i j = Some c)
  /\ map fst clips = map fst clip_colors.
Proof.
  intros H. unfold clip_grid_dicts in H.
  apply clip_grid_tracks_stores in H as (HA & HB & HC & HD). simpl in *.
  split; [| split].
  - intros i j. destruct (grid_clip s x i j) as [c |] eqn:E.
    + apply HA. by apply grid_clip_cells.
    + apply HB. intros c Hc. apply grid_clip_cells in Hc. congruence.
  - intros k Hk. destruct (HD k Hk) as [Hnil | [c Hc]]; [by apply elem_of_nil in Hnil |].
    pose proof Hc as (e & t & _ & d & slot & _ & _ & _ & ->).
    exists (0 + e)%nat, (0 + d)%nat, c. split; [done |]. by apply grid_clip_cells.
  - by apply HC.
Qed.

Lemma describable_reads (c : Clip) :
  describable c ->
  exists clip_name cv z,
    getattr (clip_attrs c) "name" = Ok clip_name
    /\ getattr (clip_attrs c) "color" = Ok cv
    /\ color_of cv = Ok z.
Proof.
  intros [(v & clip_name & Hn & _) (col & cv & z & Hc & Hz & _)].
  exists clip_name, cv, z. by rewrite (getattr_lookup _ _ _ Hn), (getattr_lookup _ _ _ Hc).
Qed.

Lemma clip_grid_slots_ok (n i : nat) (slots : list ClipSlot) (j0 : nat)
    (acc : dict * dict) :
  (forall k c, slot_cells n i j0 slots k c -> describable c) ->
  exists acc', for_enumerate j0 slots (clip_grid_slot n i) acc = Ok acc'.
Proof.
  revert j0 acc. induction slots as [| clip_slot rest IH]; intros j0 acc H.
  - by eexists.
  - assert (Hrest : forall k c, slot_cells n i (S j0) rest k c -> describable c).
    { intros k c Hc. apply (H k). apply slot_cells_cons. by right. }
    cbn [for_enumerate]. unfold rbind at 1. unfold clip_grid_slot at 1.
    destruct (Nat.leb_spec n j0) as [Hn | Hn]; [by eexists |].
    destruct (clip clip_slot) as [c0 |] eqn:Ec.
    + destruct (describable_reads c0) as (clip_name & cv & z & -> & -> & Hz).
      { apply (H (grid_key i j0)). apply slot_cells_cons. by left. }
      unfold rbind. rewrite Hz. cbn [fst snd]. apply IH, Hrest.
    + cbn [fst snd]. apply IH, Hrest.
Qed.

Lemma clip_grid_tracks_ok (n : nat) (ts : list Track) (i0 : nat) (acc : dict * dict) :
  (forall k c, track_cells n i0 ts k c -> describable c) ->
  exists acc', for_enumerate i0 ts (clip_grid_track n) acc = Ok acc'.
Proof.
  revert i0 acc. induction ts as [| track rest IH]; intros i0 acc H.
  - by eexists.
  - cbn [for_enumerate]. unfold rbind at 1. unfold clip_grid_track at 1.
    unfold rbind at 1.
    destruct (clip_grid_slots_ok n i0 (clip_slots track) 0 acc) as [acc1 ->].
    { intros k c Hc. apply (H k). apply track_cells_cons. by left. }
    cbn [fst snd]. apply IH. intros k c Hc. apply (H k). apply track_cells_cons.
    by right.
Qed.

(** X20. The clip grid succeeds exactly when every clip within the scenes
    has a name and an integer colour. Clips in slots at or beyond the scene
    count are never inspected, so they cannot make the handler fail. *)
Theorem clip_grid_succeeds_iff (s : Song) (x : SongRest) :
  (exists dicts, clip_grid_dicts s x = Ok dicts)
  <-> forall i j c, grid_clip s x i j = Some c -> describable c.
Proof.
  split.
  - intros [[clips clip_colors] H] i j c Hc. unfold clip_grid_dicts in H.
    apply clip_grid_tracks_stores in H as (HA & _).
    apply grid_clip_cells in Hc. destruct (HA _ _ Hc) as (v & col & _ & Hv & _ & Hcol).
    split; [by exists v | by exists col].
  - intros H. apply clip_grid_tracks_ok. intros k c Hc.
    pose proof Hc as (e & t & _ & d & slot & _ & _ & _ & ->).
    apply (H (0 + e)%nat (0 + d)%nat). by apply grid_clip_cells.
Qed.

(** ** The address table *)

Lemma strip_prefix_app (pre p : string) : strip_prefix pre (pre +:+ p) = Some p.
Proof.
  induction pre as [| c pre IH]; simpl; [by destruct p |].
  by rewrite Ascii.eqb_refl.
Qed.

Lemma strip_prefix_elem (pre p : string) (l : list string) :
  pre +:+ p ∈ l -> p ∈ omap (strip_prefix pre) l.
Proof.
  intros H. apply list_elem_of_omap. exists (pre +:+ p).
  split; [exact H | apply strip_prefix_app].
Qed.

(** X21. [init_api] binds every address once, so no handler replaces
    another, and it binds /live/song/set/<p> exactly for the read/write
    properties: the read-only properties (can_undo, is_playing, ...) can be
    read and listened to but have no set address. *)
Theorem addresses_are_bound_once :
  NoDup (map fst add_handler_calls)
  /\ (forall p, "/live/song/set/" +:+ p ∈ map fst add_handler_calls <-> p ∈ properties_rw)
  /\ (forall p, p ∈ properties_r ++ properties_rw ->
        "/live/song/get/" +:+ p ∈ map fst add_handler_calls
        /\ "/live/song/start_listen/" +:+ p ∈ map fst add_handler_calls
        /\ "/live/song/stop_listen/" +:+ p ∈ map fst add_handler_calls).
Proof.
  split; [| split].
  - apply (bool_decide_unpack _). by vm_compute.
  - intros p. split.
    + intros H. apply (strip_prefix_elem "/live/song/set/") in H.
      assert (E : omap (strip_prefix "/live/song/set/") (map fst add_handler_calls)
                  = properties_rw) by (by vm_compute).
      by rewrite E in H.
    + intros H. apply list_elem_of_In. unfold add_handler_calls.
      rewrite !map_app. apply in_or_app. right. apply in_or_app. right.
      apply in_or_app. left. apply in_map_iff.
      exists ("/live/song/set/" +:+ p, Set_property p). split; [reflexivity |].
      apply in_map_iff. exists p. split; [reflexivity |].
      by apply list_elem_of_In.
  - intros p H.
    assert (Hin : forall a, In a [("/live/song/get/" +:+ p);
                                  ("/live/song/start_listen/" +:+ p);
                                  ("/live/song/stop_listen/" +:+ p)]
                            -> a ∈ map fst add_handler_calls).
    { intros a Ha. apply list_elem_of_In. unfold add_handler_calls.
      rewrite map_app. apply in_or_app. right.
      rewrite map_app. apply in_or_app. left.
      rewrite concat_map. apply in_concat.
      exists ["/live/song/get/" +:+ p; "/live/song/start_listen/" +:+ p;
              "/live/song/stop_listen/" +:+ p]. split; [| exact Ha].
      apply in_map_iff.
      exists [("/live/song/get/" +:+ p, Get_property p);
              ("/live/song/start_listen/" +:+ p, Start_listen p);
              ("/live/song/stop_listen/" +:+ p, Stop_listen p)].
      split; [reflexivity |]. apply in_map_iff. exists p. split; [reflexivity |].
      by apply list_elem_of_In. }
    repeat split; apply Hin; simpl; auto.
Qed.

(** * The further properties on concrete sessions *)

Lemma forward_playback_announces_increasing_beats_witness :
  registrations (song Examples.listening) = 1%nat
  /\ nondecreasing (last_song_time Examples.listening) MoreExamples.forward_times
  /\ ascending_from (trunc (last_song_time Examples.listening))
       (beats (deliver MoreExamples.forward_times Examples.listening)).
Proof.
  assert (H : nondecreasing (last_song_time Examples.listening)
                MoreExamples.forward_times).
  { vm_compute. repeat split; discriminate. }
  split; [reflexivity |]. split; [exact H |].
  apply (forward_playback_announces_increasing_beats MoreExamples.forward_times
           Examples.listening eq_refl H).
Defined.

Lemma stopped_listener_keeps_stale_time_witness :
  (registrations (song Examples.played) <= 1)%nat
  /\ last_song_time
       (after_notifications [5 # 1; 6 # 1]%Q (snd (stop_beat_listener Examples.played)))
     = last_song_time Examples.played.
Proof.
  assert (H : (registrations (song Examples.played) <= 1)%nat) by (vm_compute; lia).
  split; [exact H |].
  apply (stopped_listener_keeps_stale_time false [5 # 1; 6 # 1]%Q (7 # 1)
           Examples.played H).
Defined.

Lemma clear_api_removes_beat_listener_witness :
  fst (MoreExamples.no_super Examples.listening) = Ok tt
  /\ registrations (song (snd (clear_api MoreExamples.no_super Examples.listening)))
     = Nat.pred (registrations (song (snd (MoreExamples.no_super Examples.listening)))).
Proof.
  split; [reflexivity |].
  apply (proj2 (clear_api_removes_beat_listener MoreExamples.no_super
                  Examples.listening) eq_refl).
Defined.

Lemma device_token_one_value_per_device_witness :
  split_dot "device.name" = ["device"; "name"]%string
  /\ Forall2 (fun device v => device_attrs device !! "name"%string = Some v)
       (devices MoreExamples.routed_track) [VStr "Reverb"; VStr "Delay"]
  /\ track_data_prop MoreExamples.routed_track (VStr "device.name") []
       (Examples.fresh Examples.two_tracks)
     = (Ok ([] ++ [VStr "Reverb"; VStr "Delay"]), Examples.fresh Examples.two_tracks).
Proof.
  assert (H : Forall2 (fun device v => device_attrs device !! "name"%string = Some v)
                (devices MoreExamples.routed_track) [VStr "Reverb"; VStr "Delay"]).
  { repeat constructor. }
  split; [reflexivity |]. split; [exact H |].
  apply (device_token_one_value_per_device MoreExamples.routed_track
           "device.name"%string "name"%string [VStr "Reverb"; VStr "Delay"] []
           (Examples.fresh Examples.two_tracks) eq_refl H).
Defined.

Lemma clip_slot_token_one_value_per_slot_witness :
  split_dot "clip_slot.has_clip" = ["clip_slot"; "has_clip"]%string
  /\ Forall2 (fun clip_slot v => clip_slot_attrs clip_slot !! "has_clip"%string = Some v)
       (clip_slots Examples.track0) [VBool true; VBool false]
  /\ track_data_prop Examples.track0 (VStr "clip_slot.has_clip") []
       (Examples.fresh Examples.two_tracks)
     = (Ok ([] ++ [VBool true; VBool false]), Examples.fresh Examples.two_tracks).
Proof.
  assert (H : Forall2
                (fun clip_slot v => clip_slot_attrs clip_slot !! "has_clip"%string = Some v)
                (clip_slots Examples.track0) [VBool true; VBool false]).
  { repeat constructor. }
  split; [reflexivity |]. split; [exact H |].
  apply (clip_slot_token_one_value_per_slot Examples.track0
           "clip_slot.has_clip"%string "has_clip"%string [VBool true; VBool false] []
           (Examples.fresh Examples.two_tracks) eq_refl H).
Defined.

Lemma track_data_range_not_clamped_witness :
  py_int Examples.no_str_to_int (VInt 0) = Ok 0
  /\ py_int Examples.no_str_to_int (VInt 5) = Ok 5
  /\ exists e,
       fst (song_get_track_data Examples.no_str_to_int [VInt 0; VInt 5; VStr "track.name"]
              (Examples.fresh Examples.two_tracks)) = Raise e.
Proof.
  split; [reflexivity |]. split; [reflexivity |].
  apply (track_data_range_not_clamped Examples.no_str_to_int (VInt 0) (VInt 5)
           [VStr "track.name"] (Examples.fresh Examples.two_tracks) 0 5
           eq_refl eq_refl).
  - reflexivity.
  - left. reflexivity.
Defined.

Lemma track_token_foreign_track_raises_witness :
  split_dot "track.output" = ["track"; "output"]%string
  /\ track_data_prop MoreExamples.routed_track (VStr "track.output") []
       (Examples.fresh Examples.two_tracks)
     = (Raise ValueError, Examples.fresh Examples.two_tracks).
Proof.
  split; [reflexivity |].
  apply (track_token_foreign_track_raises MoreExamples.routed_track
           "track.output"%string "output"%string 99%nat []
           (Examples.fresh Examples.two_tracks) eq_refl).
  - discriminate.
  - reflexivity.
  - intros t Ht. apply elem_of_cons in Ht as [-> | Ht]; [discriminate |].
    apply elem_of_cons in Ht as [-> | Ht]; [discriminate |].
    by apply elem_of_nil in Ht.
Defined.

Lemma track_names_of_all_tracks_witness :
  Forall2 (fun track v => track_attrs track !! "name"%string = Some v)
    (tracks Examples.two_tracks) [VStr "Drums"; VStr "Kick"]
  /\ song_get_track_names Examples.two_tracks [] = Ok [VStr "Drums"; VStr "Kick"].
Proof.
  assert (H : Forall2 (fun track v => track_attrs track !! "name"%string = Some v)
                (tracks Examples.two_tracks) [VStr "Drums"; VStr "Kick"]).
  { repeat constructor. }
  split; [exact H |].
  apply (track_names_of_all_tracks Examples.two_tracks [VStr "Drums"; VStr "Kick"] H).
Defined.

Lemma track_names_agrees_with_track_data_witness :
  (forall t r, t ∈ tracks (song (Examples.fresh Examples.two_tracks)) ->
               track_attrs t !! "name"%string <> Some (VTrack r))
  /\ song_get_track_names (song (Examples.fresh Examples.two_tracks)) [VInt 0; VInt (-1)]
     = fst (song_get_track_data Examples.no_str_to_int
              [VInt 0; VInt (-1); VStr "track.name"]
              (Examples.fresh Examples.two_tracks)).
Proof.
  assert (H : forall t r, t ∈ tracks (song (Examples.fresh Examples.two_tracks)) ->
                          track_attrs t !! "name"%string <> Some (VTrack r)).
  { intros t r Ht. apply elem_of_cons in Ht as [-> | Ht]; [discriminate |].
    apply elem_of_cons in Ht as [-> | Ht]; [discriminate |].
    by apply elem_of_nil in Ht. }
  split; [exact H |].
  apply (track_names_agrees_with_track_data Examples.no_str_to_int 0 (-1)
           (Examples.fresh Examples.two_tracks) H).
Defined.

Lemma scene_names_upper_bound_is_literal_witness :
  Forall2 (fun scene v => scene_attrs scene !! "name"%string = Some v)
    (scenes MoreExamples.two_scenes) [VStr "Verse"; VStr "Chorus"]
  /\ -1 <= 0
  /\ song_get_scene_names MoreExamples.two_scenes [VInt 0; VInt (-1)] = Ok [].
Proof.
  assert (H : Forall2 (fun scene v => scene_attrs scene !! "name"%string = Some v)
                (scenes MoreExamples.two_scenes) [VStr "Verse"; VStr "Chorus"]).
  { repeat constructor. }
  split; [exact H |]. split; [lia |].
  apply (proj2 (proj2 (scene_names_upper_bound_is_literal MoreExamples.two_scenes
                         [VStr "Verse"; VStr "Chorus"] H)) 0).
  lia.
Defined.

Lemma cue_points_are_listed_in_pairs_witness :
  cue_points MoreExamples.one_track !! 1%nat
  = Some (Examples.cue 21%nat "drop" (16 # 1))
  /\ song_get_cue_points MoreExamples.one_track !! (2 * 1)%nat = Some (VStr "drop").
Proof.
  split; [reflexivity |].
  apply (proj2 (cue_points_are_listed_in_pairs MoreExamples.one_track) 1%nat
           (Examples.cue 21%nat "drop" (16 # 1)) eq_refl).
Defined.

Lemma cue_point_set_name_then_get_witness :
  - Z.of_nat (length (cue_points (song (Examples.fresh MoreExamples.one_track))))
    <= -1 < Z.of_nat (length (cue_points (song (Examples.fresh MoreExamples.one_track))))
  /\ exists c,
       cue_points (song (Examples.fresh MoreExamples.one_track)) !! 1%nat = Some c
       /\ fst (song_cue_point_set_name [VInt (-1); VStr "end"]
                 (Examples.fresh MoreExamples.one_track)) = Ok tt
       /\ cue_points (song (snd (song_cue_point_set_name [VInt (-1); VStr "end"]
                                   (Examples.fresh MoreExamples.one_track)))) !! 1%nat
          = Some {| cue_ref := cue_ref c; name := "end"; time := time c |}.
Proof.
  assert (H : - Z.of_nat (length (cue_points (song (Examples.fresh MoreExamples.one_track))))
              <= -1
              < Z.of_nat (length (cue_points (song (Examples.fresh MoreExamples.one_track)))))
    by (vm_compute; split; [discriminate | reflexivity]).
  split; [exact H |].
  destruct (cue_point_set_name_then_get (-1) "end" [] (Examples.fresh MoreExamples.one_track) H)
    as (c & Hc & Hok & Hnew & _).
  exists c. split; [exact Hc |]. split; [exact Hok | exact Hnew].
Defined.

Lemma cue_point_set_name_failure_witness :
  (length [VInt 0] < 2)%nat
  /\ song_cue_point_set_name [VInt 0] (Examples.fresh MoreExamples.one_track)
     = (Raise IndexError, Examples.fresh MoreExamples.one_track).
Proof.
  assert (H : (length [VInt 0] < 2)%nat) by (vm_compute; lia).
  split; [exact H |].
  apply (proj1 (proj2 (cue_point_set_name_failure [VInt 0]
                         (Examples.fresh MoreExamples.one_track))) H).
Defined.

Lemma renamed_cue_point_is_jumped_by_name_witness :
  - Z.of_nat (length (cue_points (song (Examples.fresh MoreExamples.one_track))))
    <= 0 < Z.of_nat (length (cue_points (song (Examples.fresh MoreExamples.one_track))))
  /\ exists c,
       cue_points (song (Examples.fresh MoreExamples.one_track)) !! 0%nat = Some c
       /\ cue_ref c ∈ jumped (song (snd (song_jump_to_cue_point [VStr "top"]
                                           (snd (song_cue_point_set_name
                                                   [VInt 0; VStr "top"]
                                                   (Examples.fresh MoreExamples.one_track)))))).
Proof.
  assert (H : - Z.of_nat (length (cue_points (song (Examples.fresh MoreExamples.one_track))))
              <= 0
              < Z.of_nat (length (cue_points (song (Examples.fresh MoreExamples.one_track)))))
    by (vm_compute; split; [discriminate | reflexivity]).
  split; [exact H |].
  apply (renamed_cue_point_is_jumped_by_name 0 "top"
           (Examples.fresh MoreExamples.one_track) H).
Defined.

Lemma session_info_arrays_are_parallel_witness :
  summaries (tracks MoreExamples.one_track) [VStr "Bass"] ["#ff8000"%string] [true]
  /\ session_info_data MoreExamples.one_track MoreExamples.two_scenes
     = Ok (session_info_json MoreExamples.two_scenes
             [VStr "Bass"] ["#ff8000"%string] [true]).
Proof.
  assert (H : summaries (tracks MoreExamples.one_track)
                [VStr "Bass"] ["#ff8000"%string] [true]).
  { split; [| exact I]. split; [reflexivity |]. split.
    - exists (VInt 16744448), 16744448. repeat split.
    - exists (VBool true). repeat split. }
  split; [exact H |].
  apply (proj2 (proj1 (session_info_arrays_are_parallel (fun _ => Raise TypeError)
                         MoreExamples.one_track MoreExamples.two_scenes) _)).
  exists [VStr "Bass"], ["#ff8000"%string], [true]. split; [exact H | reflexivity].
Defined.

Lemma clip_grid_holds_the_occupied_cells_witness :
  clip_grid_dicts MoreExamples.one_track MoreExamples.two_scenes
  = Ok ([("0,0"%string, VStr "(unnamed)")], [("0,0"%string, VStr "#0000ff")])
  /\ map fst [("0,0"%string, VStr "(unnamed)")]
     = map fst [("0,0"%string, VStr "#0000ff")]
  /\ dict_get (grid_key 0 2) [("0,0"%string, VStr "(unnamed)")] = None.
Proof.
  assert (H : clip_grid_dicts MoreExamples.one_track MoreExamples.two_scenes
              = Ok ([("0,0"%string, VStr "(unnamed)")], [("0,0"%string, VStr "#0000ff")]))
    by reflexivity.
  split; [exact H |]. split.
  - apply (proj2 (proj2 (clip_grid_holds_the_occupied_cells _ _ _ _ H))).
  - apply (proj1 (proj1 (clip_grid_holds_the_occupied_cells _ _ _ _ H) 0%nat 2%nat)).
Defined.

Lemma clip_grid_succeeds_iff_witness :
  (exists dicts, clip_grid_dicts MoreExamples.one_track MoreExamples.two_scenes = Ok dicts)
  /\ forall i j c,
       grid_clip MoreExamples.one_track MoreExamples.two_scenes i j = Some c ->
       describable c.
Proof.
  assert (H : exists dicts,
            clip_grid_dicts MoreExamples.one_track MoreExamples.two_scenes = Ok dicts).
  { eexists. reflexivity. }
  split; [exact H |].
  apply (proj1 (clip_grid_succeeds_iff MoreExamples.one_track MoreExamples.two_scenes) H).
Defined.
